(** * Tiled image-to-image invocation: tile geometry, ordering, stitching

    A shallow embedding of [SpandrelImageToImageInvocation]
    (invokeai/app/invocations/spandrel_image_to_image.py) and the proofs of
    the properties its specification states about it.

    Python integers are [Z]; [//] is [Z.div] (both round towards minus
    infinity for a positive divisor).  Torch tensors are a shape together
    with an indexing function; slicing follows Python's index adjustment. *)

From Stdlib Require Import SpecFloat String QArith Qround ZArith List Lia Bool Permutation Sorted.
Import ListNotations.
Local Open Scope Z_scope.

(** ** Tile model (invokeai.backend.tiles.utils: TBLR, Tile) *)

Record TBLR : Type := mkTBLR { top : Z; bottom : Z; left : Z; right : Z }.

Record Tile : Type := mkTile { coords : TBLR; overlap : TBLR }.

(** [TBLR * scale], field by field. *)
Definition tblr_mul (r : TBLR) (s : Z) : TBLR :=
  mkTBLR (top r * s) (bottom r * s) (left r * s) (right r * s).

(** [SpandrelImageToImageInvocation._scale_tile]; [self] is not used by the
    method body. *)
Definition _scale_tile (tile : Tile) (scale : Z) : Tile :=
  mkTile
    (mkTBLR (top (coords tile) * scale)
            (bottom (coords tile) * scale)
            (left (coords tile) * scale)
            (right (coords tile) * scale))
    (mkTBLR (top (overlap tile) * scale)
            (bottom (overlap tile) * scale)
            (left (overlap tile) * scale)
            (right (overlap tile) * scale)).

(** Tile objects live in an object store; a reference is the allocation
    index.  The method reads the fields of its argument and allocates the
    result; it assigns to no field. *)
Module Store.

Definition loc := nat.
Definition store := list Tile.

Definition deref (s : store) (p : loc) : option Tile := nth_error s p.

Definition alloc (s : store) (t : Tile) : store * loc :=
  (s ++ [t], length s).

Definition scale_tile_ref (s : store) (p : loc) (scale : Z)
  : option (store * loc) :=
  match deref s p with
  | Some tile => Some (alloc s (_scale_tile tile scale))
  | None => None
  end.

End Store.

(** ** Ordering: Python's [sorted(xs, key=...)]

    [sorted] is a stable sort; the result of a stable sort is determined by
    the input and the key (see [sorted_unique] below), so it is modelled by
    stable insertion. *)

Section Sorted.
Context {A : Type} (key : A -> Z).

Fixpoint insert_by (x : A) (l : list A) : list A :=
  match l with
  | [] => [x]
  | y :: l' => if key x <=? key y then x :: l else y :: insert_by x l'
  end.

Fixpoint sorted (l : list A) : list A :=
  match l with
  | [] => []
  | x :: l' => insert_by x (sorted l')
  end.

Definition key_le (a b : A) : Prop := key a <= key b.

(** [l'] is the stable sort of [l] by [key]: same elements, keys
    non-decreasing, elements of equal key in their original order. *)
Definition is_stable_sort (l l' : list A) : Prop :=
  Permutation l' l /\
  StronglySorted key_le l' /\
  forall k, filter (fun a => key a =? k) l' = filter (fun a => key a =? k) l.

End Sorted.

Definition key_left (x : Tile) : Z := left (coords x).
Definition key_top (x : Tile) : Z := top (coords x).

(** Lines 82-83 of [invoke]. *)
Definition order_tiles (tiles : list Tile) : list Tile :=
  let tiles := sorted key_left tiles in
  let tiles := sorted key_top tiles in
  tiles.

(** Row-major order on tiles: by [coords.top], then by [coords.left]. *)
Definition row_major_le (a b : Tile) : Prop :=
  key_top a < key_top b \/ (key_top a = key_top b /\ key_left a <= key_left b).

(** ** Tensors and slicing

    A tensor is its shape and its indexing function; only the cells inside
    the shape are meaningful.  [materialize3] lists them. *)

Record Tensor3 (A : Type) : Type :=
  mkTensor3 { shape3 : Z * Z * Z; at3 : Z -> Z -> Z -> A }.
Record Tensor4 (A : Type) : Type :=
  mkTensor4 { shape4 : Z * Z * Z * Z; at4 : Z -> Z -> Z -> Z -> A }.
Arguments mkTensor3 {A} _ _.
Arguments shape3 {A} _.
Arguments at3 {A} _ _ _ _.
Arguments mkTensor4 {A} _ _.
Arguments shape4 {A} _.
Arguments at4 {A} _ _ _ _ _.

(** A slice [start:stop]; [None] is an omitted bound. *)
Definition slice : Type := option Z * option Z.

(** Python's adjustment of a slice bound to a dimension of length [n]:
    a negative bound counts from the end, and every bound is clipped. *)
Definition adjust_index (i n : Z) : Z :=
  if i <? 0 then Z.max (i + n) 0 else Z.min i n.

(** First index and length selected by a slice in a dimension of length [n]. *)
Definition slice_indices (s : slice) (n : Z) : Z * Z :=
  let start := match fst s with Some i => adjust_index i n | None => 0 end in
  let stop := match snd s with Some i => adjust_index i n | None => n end in
  (start, Z.max 0 (stop - start)).

Definition in_range (start len i : Z) : bool :=
  (start <=? i) && (i <? start + len).

(** [x[:, :, rows, cols]] *)
Definition getitem4_hw {A} (x : Tensor4 A) (rows cols : slice) : Tensor4 A :=
  let '(n, c, h, w) := shape4 x in
  let '(r0, rn) := slice_indices rows h in
  let '(c0, cn) := slice_indices cols w in
  mkTensor4 (n, c, rn, cn) (fun b ch i j => at4 x b ch (r0 + i) (c0 + j)).

(** [x[rows, cols, :]] *)
Definition getitem3 {A} (x : Tensor3 A) (rows cols : slice) : Tensor3 A :=
  let '(h, w, c) := shape3 x in
  let '(r0, rn) := slice_indices rows h in
  let '(c0, cn) := slice_indices cols w in
  mkTensor3 (rn, cn, c) (fun i j ch => at3 x (r0 + i) (c0 + j) ch).

(** A dimension of the assigned value fits the target dimension when it is
    equal to it or is 1 (broadcast). *)
Definition broadcastable (src dst : Z) : bool := (src =? dst) || (src =? 1).
Definition broadcast_index (src i : Z) : Z := if src =? 1 then 0 else i.

(** [dst[rows, cols, :] = src]; [None] when the shapes do not fit, where
    torch raises. *)
Definition setitem3 {A} (dst : Tensor3 A) (rows cols : slice) (src : Tensor3 A)
  : option (Tensor3 A) :=
  let '(h, w, c) := shape3 dst in
  let '(r0, rn) := slice_indices rows h in
  let '(c0, cn) := slice_indices cols w in
  let '(sh, sw, sc) := shape3 src in
  if broadcastable sh rn && broadcastable sw cn && broadcastable sc c then
    Some (mkTensor3 (h, w, c)
            (fun i j ch =>
               if in_range r0 rn i && in_range c0 cn j then
                 at3 src (broadcast_index sh (i - r0))
                         (broadcast_index sw (j - c0))
                         (broadcast_index sc ch)
               else at3 dst i j ch))
  else None.

(** [x.squeeze(0)]: drops the first dimension when its size is 1; otherwise
    the tensor keeps its four dimensions ([None] here), and the permutation
    of three dimensions that follows raises. *)
Definition squeeze0 {A} (x : Tensor4 A) : option (Tensor3 A) :=
  let '(n, c, h, w) := shape4 x in
  if n =? 1 then Some (mkTensor3 (c, h, w) (fun ch i j => at4 x 0 ch i j))
  else None.

(** [x.permute(1, 2, 0)]: (C, H, W) -> (H, W, C) *)
Definition permute_1_2_0 {A} (x : Tensor3 A) : Tensor3 A :=
  let '(c, h, w) := shape3 x in
  mkTensor3 (h, w, c) (fun i j ch => at3 x ch i j).

Definition tmap3 {A B} (f : A -> B) (x : Tensor3 A) : Tensor3 B :=
  mkTensor3 (shape3 x) (fun i j ch => f (at3 x i j ch)).

Definition tmap4 {A B} (f : A -> B) (x : Tensor4 A) : Tensor4 B :=
  mkTensor4 (shape4 x) (fun b ch i j => f (at4 x b ch i j)).

(** [torch.zeros(shape, dtype=torch.uint8)]; a negative dimension raises. *)
Definition zeros3 (shape : Z * Z * Z) : option (Tensor3 Z) :=
  let '(h, w, c) := shape in
  if (0 <=? h) && (0 <=? w) && (0 <=? c)
  then Some (mkTensor3 shape (fun _ _ _ => 0))
  else None.

(** Cell [(i, j, ch)] lies inside shape [(h, w, c)]. *)
Definition in_shape3 (shape : Z * Z * Z) (i j ch : Z) : Prop :=
  let '(h, w, c) := shape in 0 <= i < h /\ 0 <= j < w /\ 0 <= ch < c.

Definition zrange (n : Z) : list Z := map Z.of_nat (seq 0 (Z.to_nat n)).

(** The contents of a tensor as nested lists: rows, columns, channels. *)
Definition materialize3 {A} (x : Tensor3 A) : list (list (list A)) :=
  let '(h, w, c) := shape3 x in
  map (fun i => map (fun j => map (fun ch => at3 x i j ch) (zrange c)) (zrange w))
      (zrange h).

(** ** Sample types

    The floating-point type of the tensors is the loaded model's [dtype];
    the invocation uses it through these operations only. *)
Class TorchFloat (F : Type) : Type := {
  of_uint8 : Z -> F;      (* an 8-bit sample as a float in [0, 1] *)
  to_dtype : F -> F;      (* [.to(dtype=spandrel_model.dtype)] *)
  clamp_0_1 : F -> F;     (* [.clamp(0, 1)] *)
  mul_255 : F -> F;       (* [* 255] *)
  trunc : F -> Z          (* conversion to an integer, towards zero *)
}.

(** [.to(dtype=torch.uint8)]: the integer part, on 8 bits. *)
Definition to_uint8 {F} `{TorchFloat F} (v : F) : Z := trunc v mod 256.

(** Exact arithmetic on rationals: a sample type without rounding. *)
Definition Qclamp_0_1 (q : Q) : Q :=
  if Qle_bool q 0 then 0%Q else if Qle_bool 1 q then 1%Q else q.

#[export] Instance ExactQ : TorchFloat Q := {|
  of_uint8 := fun b => Qmake b 255;
  to_dtype := fun q => q;
  clamp_0_1 := Qclamp_0_1;
  mul_255 := fun q => Qmult q (inject_Z 255);
  trunc := fun q => Z.quot (Qnum q) (Zpos (Qden q))
|}.

(** ** Images (PIL) *)

Inductive PilMode : Type := ModeL | ModeLA | ModeRGB | ModeRGBA.

Definition bands (m : PilMode) : Z :=
  match m with ModeL => 1 | ModeLA => 2 | ModeRGB => 3 | ModeRGBA => 4 end.

Definition has_alpha (m : PilMode) : bool :=
  match m with ModeLA | ModeRGBA => true | ModeL | ModeRGB => false end.

(** [px row col band] is a sample in 0..255. *)
Record PilImage : Type :=
  mkPilImage { mode : PilMode; height : Z; width : Z; px : Z -> Z -> Z -> Z }.

(** [Image.convert("RGB")]: grey levels are replicated, colour bands are
    kept, the alpha band is dropped. *)
Definition convert_rgb (im : PilImage) : PilImage :=
  mkPilImage ModeRGB (height im) (width im)
    (fun i j b =>
       match mode im with
       | ModeL | ModeLA => px im i j 0
       | ModeRGB | ModeRGBA => px im i j b
       end).

(** [np.array(image)]: (height, width, bands). *)
Definition np_array (im : PilImage) : Tensor3 Z :=
  mkTensor3 (height im, width im, bands (mode im)) (px im).

(** [Image.fromarray] of an 8-bit (H, W, C) array: the mode follows the
    number of channels; other channel counts raise. *)
Definition fromarray (a : Tensor3 Z) : option PilImage :=
  let '(h, w, c) := shape3 a in
  let mk m := Some (mkPilImage m h w (at3 a)) in
  if c =? 2 then mk ModeLA else if c =? 3 then mk ModeRGB
  else if c =? 4 then mk ModeRGBA else None.

(** ** Exceptions, events and the invocation monad *)

Inductive exn : Type :=
| CanceledException
| AssertionError
| RuntimeError
| ValueError
| TypeError
| ModelError (msg : string).

Inductive result (A : Type) : Type :=
| Ok (a : A)
| Raise (e : exn).
Arguments Ok {A} _.
Arguments Raise {A} _.

(** What the invocation does to the services around it, most recent first. *)
Inductive event : Type :=
| EvTileGrid                 (* a call of the tile generator *)
| EvPoll (canceled : bool)   (* a poll of the cancellation flag *)
| EvRun                      (* a call of the model on one tile *)
| EvSave (img : PilImage).   (* an image handed to the image service *)

Definition trace : Type := list event.

Definition is_poll (e : event) : bool :=
  match e with EvPoll _ => true | _ => false end.
Definition is_run (e : event) : bool :=
  match e with EvRun => true | _ => false end.
Definition is_save (e : event) : bool :=
  match e with EvSave _ => true | _ => false end.
Definition is_tilegrid (e : event) : bool :=
  match e with EvTileGrid => true | _ => false end.

Definition count (p : event -> bool) (tr : trace) : nat :=
  List.length (filter p tr).

(** A computation reads and extends the trace and returns or raises. *)
Definition M (A : Type) : Type := trace -> result A * trace.

Definition ret {A} (a : A) : M A := fun tr => (Ok a, tr).
Definition raise {A} (e : exn) : M A := fun tr => (Raise e, tr).
Definition bind {A B} (m : M A) (k : A -> M B) : M B :=
  fun tr =>
    match m tr with
    | (Ok a, tr') => k a tr'
    | (Raise e, tr') => (Raise e, tr')
    end.
(** An operation that raises [e] where its model returns [None]. *)
Definition or_raise {A} (e : exn) (o : option A) : M A :=
  match o with Some a => ret a | None => raise e end.

Declare Scope inv_scope.
Delimit Scope inv_scope with inv.
Notation "x <- m ;; k" := (bind m (fun x => k))
  (at level 61, m at next level, right associativity) : inv_scope.
Local Open Scope inv_scope.

(** ** The services of the invocation *)

Definition ModelIdentifierField : Type := string.
Definition ImageField : Type := string.

(** The transform capability: an integer scale and [run].  A call may fail,
    and may depend on how many calls came before it. *)
Record SpandrelImageToImageModel (F : Type) : Type := mkModel {
  scale : Z;
  run : nat -> Tensor4 F -> result (Tensor4 F)
}.
Arguments mkModel {F} _ _.
Arguments scale {F} _.
Arguments run {F} _ _ _.

(** What [context.models.load] may hand back. *)
Inductive LoadedModel (F : Type) : Type :=
| IsSpandrelImageToImageModel (m : SpandrelImageToImageModel F)
| IsOtherModel.
Arguments IsSpandrelImageToImageModel {F} _.
Arguments IsOtherModel {F}.

Record ImageDTO : Type := mkImageDTO { dto_index : nat; dto_image : PilImage }.
Record ImageOutput : Type := build { image_dto : ImageDTO }.

(** [InvocationContext]: the services the invocation calls.
    [images_get_pil name mode] is [context.images.get_pil(name, mode=mode)],
    which is not in the source file: the image it hands over is whatever the
    service answers, and nothing is assumed of it.  [is_canceled_at n] is the
    answer to the poll that follows [n] earlier ones. *)
Record InvocationContext (F : Type) : Type := mkContext {
  images_get_pil : string -> PilMode -> PilImage;
  models_load : ModelIdentifierField -> LoadedModel F;
  is_canceled_at : nat -> bool
}.
Arguments mkContext {F} _ _ _.
Arguments images_get_pil {F} _ _ _.
Arguments models_load {F} _ _.
Arguments is_canceled_at {F} _ _.

(** Modelled from the spec: [SpandrelImageToImageModel.pil_to_tensor] is not
    in the source file.  Its result has the shape (1, channels, height,
    width) that [invoke] unpacks, and holds the samples of the image as
    floats in [0, 1] (section 6, [input_region]). *)
Definition pil_to_tensor {F} `{TorchFloat F} (image : PilImage) : Tensor4 F :=
  let '(h, w, c) := shape3 (np_array image) in
  mkTensor4 (1, c, h, w) (fun _ ch i j => of_uint8 (at3 (np_array image) i j ch)).

(** [zip(xs, ys, strict=True)] *)
Fixpoint zip_strict {A B} (xs : list A) (ys : list B) : option (list (A * B)) :=
  match xs, ys with
  | [], [] => Some []
  | x :: xs', y :: ys' =>
      match zip_strict xs' ys' with
      | Some l => Some ((x, y) :: l)
      | None => None
      end
  | _, _ => None
  end.

Record SpandrelImageToImageInvocation : Type := mkInvocation {
  image : ImageField;
  image_to_image_model : ModelIdentifierField;
  tile_size : Z
}.

Section Invocation.
Context {F : Type} `{TorchFloat F}.

(** [invokeai.backend.tiles.tiles.calc_tiles_min_overlap], which is not in
    the source file: image_height, image_width, tile_height, tile_width,
    min_overlap. *)
Variable calc_tiles_min_overlap : Z -> Z -> Z -> Z -> Z -> result (list Tile).

Variable context : InvocationContext F.

Definition tile_grid (image_height image_width tile_height tile_width
                      min_overlap : Z) : M (list Tile) :=
  fun tr =>
    (calc_tiles_min_overlap image_height image_width tile_height tile_width
                            min_overlap,
     EvTileGrid :: tr).

(** [context.util.is_canceled()] *)
Definition is_canceled : M bool :=
  fun tr =>
    let b := is_canceled_at context (count is_poll tr) in
    (Ok b, EvPoll b :: tr).

(** [spandrel_model.run(input_tile)] *)
Definition model_run (spandrel_model : SpandrelImageToImageModel F)
  (input_tile : Tensor4 F) : M (Tensor4 F) :=
  fun tr => (run spandrel_model (count is_run tr) input_tile, EvRun :: tr).

(** [context.images.save(image=pil_image)] *)
Definition images_save (pil_image : PilImage) : M ImageDTO :=
  fun tr => (Ok (mkImageDTO (count is_save tr) pil_image), EvSave pil_image :: tr).

(** Lines 61-78: the tiles of the image. *)
Definition compute_tiles (self : SpandrelImageToImageInvocation)
  (image : PilImage) : M (list Tile) :=
  if tile_size self >? 0 then
    let min_overlap := 20 in
    tile_grid (height image) (width image) (tile_size self) (tile_size self)
              min_overlap
  else
    ret [ mkTile (mkTBLR 0 (height image) 0 (width image)) (mkTBLR 0 0 0 0) ].

(** Lines 120-126: the output tile in the output tensor's format; [None]
    where the permutation raises. *)
Definition convert_output_tile (output_tile : Tensor4 F) : option (Tensor3 Z) :=
  match squeeze0 output_tile with
  | None => None
  | Some output_tile =>
      let output_tile := permute_1_2_0 output_tile in
      let output_tile := tmap3 clamp_0_1 output_tile in
      let output_tile := tmap3 to_uint8 (tmap3 mul_255 output_tile) in
      Some output_tile
  end.

(** Lines 132-138: the stitch of one converted tile; [None] where the
    assignment raises. *)
Definition merge_tile (output_tensor : Tensor3 Z) (scaled_tile : Tile)
  (output_tile : Tensor3 Z) : option (Tensor3 Z) :=
  let top_overlap := top (overlap scaled_tile) / 2 in
  let left_overlap := left (overlap scaled_tile) / 2 in
  setitem3 output_tensor
    (Some (top (coords scaled_tile) + top_overlap),
     Some (bottom (coords scaled_tile)))
    (Some (left (coords scaled_tile) + left_overlap),
     Some (right (coords scaled_tile)))
    (getitem3 output_tile (Some top_overlap, None) (Some left_overlap, None)).

(** Lines 112-115: the tile of the input tensor. *)
Definition extract_tile (image_tensor : Tensor4 F) (tile : Tile) : Tensor4 F :=
  tmap4 to_dtype
    (getitem4_hw image_tensor
       (Some (top (coords tile)), Some (bottom (coords tile)))
       (Some (left (coords tile)), Some (right (coords tile)))).

(** Lines 108-138: the body of the loop. *)
Definition process_tile (spandrel_model : SpandrelImageToImageModel F)
  (image_tensor : Tensor4 F) (tile scaled_tile : Tile)
  (output_tensor : Tensor3 Z) : M (Tensor3 Z) :=
  canceled <- is_canceled ;;
  if (canceled : bool) then raise CanceledException
  else
    let input_tile := extract_tile image_tensor tile in
    output_tile <- model_run spandrel_model input_tile ;;
    output_tile <- or_raise RuntimeError (convert_output_tile output_tile) ;;
    or_raise RuntimeError (merge_tile output_tensor scaled_tile output_tile).

(** Line 107: the loop over the tiles and their scaled counterparts. *)
Fixpoint process_tiles (spandrel_model : SpandrelImageToImageModel F)
  (image_tensor : Tensor4 F) (pairs : list (Tile * Tile))
  (output_tensor : Tensor3 Z) : M (Tensor3 Z) :=
  match pairs with
  | [] => ret output_tensor
  | (tile, scaled_tile) :: pairs' =>
      output_tensor <-
        process_tile spandrel_model image_tensor tile scaled_tile output_tensor ;;
      process_tiles spandrel_model image_tensor pairs' output_tensor
  end.

(** Lines 100-103: the output tensor. *)
Definition allocate_output (scale : Z) (image_tensor : Tensor4 F)
  : option (Tensor3 Z) :=
  let '(_, channels, height, width) := shape4 image_tensor in
  zeros3 (height * scale, width * scale, channels).

(** What the loop works on: the model, the input tensor, the tiles with
    their scaled counterparts, the output tensor. *)
Definition loop_state : Type :=
  (SpandrelImageToImageModel F * Tensor4 F * list (Tile * Tile) * Tensor3 Z)%type.

(** Lines 58-105: everything before the loop. *)
Definition prepare (self : SpandrelImageToImageInvocation) : M loop_state :=
  let image := images_get_pil context (image self) ModeRGB in
  tiles <- compute_tiles self image ;;
  let tiles := order_tiles tiles in
  let image_tensor := pil_to_tensor image in
  match models_load context (image_to_image_model self) with
  | IsOtherModel => raise AssertionError
  | IsSpandrelImageToImageModel spandrel_model =>
      let scale := scale spandrel_model in
      let scaled_tiles := map (fun tile => _scale_tile tile scale) tiles in
      output_tensor <- or_raise RuntimeError (allocate_output scale image_tensor) ;;
      let image_tensor := tmap4 to_dtype image_tensor in
      pairs <- or_raise ValueError (zip_strict tiles scaled_tiles) ;;
      ret (spandrel_model, image_tensor, pairs, output_tensor)
  end.

(** Lines 140-144: the output tensor becomes an image and is saved. *)
Definition finish (output_tensor : Tensor3 Z) : M ImageOutput :=
  let np_image := tmap3 (fun v => v mod 256) output_tensor in
  pil_image <- or_raise TypeError (fromarray np_image) ;;
  image_dto <- images_save pil_image ;;
  ret (build image_dto).

(** [SpandrelImageToImageInvocation.invoke] *)
Definition invoke (self : SpandrelImageToImageInvocation) : M ImageOutput :=
  st <- prepare self ;;
  let '(spandrel_model, image_tensor, pairs, output_tensor) := st in
  output_tensor <- process_tiles spandrel_model image_tensor pairs output_tensor ;;
  finish output_tensor.

End Invocation.

(** ** Tilings

    The tile generator is not in the source file; what the loop needs of its
    result is what the specification states as invariants of a tile set. *)

(** A half-open interval [lo, hi) of rows or of columns. *)
Definition span : Type := (Z * Z)%type.

(** Modelled from the spec: the covering invariant of section 3 past the
    first span of an axis: each later span is a rectangle's side inside
    [0, n), starts no later than the end of the span before it (no gap), and
    the last one ends at [n]. *)
Fixpoint axis_linked (n hi_prev : Z) (a : list span) : bool :=
  match a with
  | [] => hi_prev =? n
  | (lo, hi) :: a' =>
      (0 <=? lo) && (lo <? hi) && (hi <=? n) && (lo <=? hi_prev)
      && axis_linked n hi a'
  end.

(** Modelled from the spec: the covering invariant of section 3 along one
    axis of a grid of tiles: the spans are rectangles' sides
    ([0 <= lo < hi]), start at 0, leave no gap and end at [n]. *)
Definition axis_valid (n : Z) (a : list span) : bool :=
  match a with
  | [] => false
  | (lo, hi) :: a' => (lo =? 0) && (lo <? hi) && (hi <=? n) && axis_linked n hi a'
  end.

(** Modelled from the spec: the overlap of neighbours along one axis is at
    least [min_overlap]. *)
Fixpoint axis_min_overlap (min_overlap : Z) (a : list span) : bool :=
  match a with
  | [] => true
  | (lo, hi) :: a' =>
      match a' with
      | [] => true
      | (lo', _) :: _ => (min_overlap <=? hi - lo') && axis_min_overlap min_overlap a'
      end
  end.

(** Modelled from the spec: the overlap amounts of section 3.  Each span
    with the amount it shares with the span before it and with the span after
    it; zero on the sides at the image boundary. *)
Fixpoint axis_overlaps (hi_prev : option Z) (a : list span)
  : list (span * (Z * Z)) :=
  match a with
  | [] => []
  | (lo, hi) :: a' =>
      let before := match hi_prev with Some h => h - lo | None => 0 end in
      let after := match a' with (lo', _) :: _ => hi - lo' | [] => 0 end in
      ((lo, hi), (before, after)) :: axis_overlaps (Some hi) a'
  end.

(** Modelled from the spec: the tiles of the grid with the given row and
    column spans, each with the overlap amounts of its four sides. *)
Definition grid_tiles (rows cols : list span) : list Tile :=
  flat_map
    (fun r =>
       map (fun c =>
              mkTile (mkTBLR (fst (fst r)) (snd (fst r)) (fst (fst c)) (snd (fst c)))
                     (mkTBLR (fst (snd r)) (snd (snd r)) (fst (snd c)) (snd (snd c))))
           (axis_overlaps None cols))
    (axis_overlaps None rows).

(** Modelled from the spec: a tile set satisfying the covering invariant of
    section 3, with overlap amounts as the data model defines them: the
    tiles, in any order, of a grid whose rows cover [0, height) and whose
    columns cover [0, width). *)
Definition covering_tiling (height width : Z) (tiles : list Tile) : Prop :=
  exists rows cols,
    axis_valid height rows = true /\
    axis_valid width cols = true /\
    Permutation tiles (grid_tiles rows cols).

(** Modelled from the spec: a tile set satisfying the covering and the
    pairwise-overlap invariants of section 3. *)
Definition valid_tiling (height width min_overlap : Z) (tiles : list Tile) : Prop :=
  exists rows cols,
    axis_valid height rows = true /\
    axis_valid width cols = true /\
    axis_min_overlap min_overlap rows = true /\
    axis_min_overlap min_overlap cols = true /\
    Permutation tiles (grid_tiles rows cols).

(** The cells of the output tensor that the stitch of [scaled_tile] assigns:
    the target slices of lines 134-137 in a tensor of [h] rows and [w]
    columns. *)
Definition stitch_region (h w : Z) (scaled_tile : Tile) (i j : Z) : bool :=
  let top_overlap := top (overlap scaled_tile) / 2 in
  let left_overlap := left (overlap scaled_tile) / 2 in
  let '(r0, rn) :=
    slice_indices (Some (top (coords scaled_tile) + top_overlap),
                   Some (bottom (coords scaled_tile))) h in
  let '(c0, cn) :=
    slice_indices (Some (left (coords scaled_tile) + left_overlap),
                   Some (right (coords scaled_tile))) w in
  in_range r0 rn i && in_range c0 cn j.

(** ** Auxiliary notions for the proofs *)

(** A tile inside a tensor of [h] rows and [w] columns, with its overlap
    amounts non-negative. *)
Definition tile_within (h w : Z) (t : Tile) : Prop :=
  0 <= top (coords t) <= bottom (coords t) /\ bottom (coords t) <= h /\
  0 <= left (coords t) <= right (coords t) /\ right (coords t) <= w /\
  0 <= top (overlap t) /\ 0 <= left (overlap t).

(** The trace after one iteration that got past the poll. *)
Definition after_tile (tr : trace) : trace := EvRun :: EvPoll false :: tr.

(** The part of [0, n * s) that a span writes once half of its overlap with
    the span before it is trimmed, in coordinates scaled by [s]. *)
Definition span_writes (s : Z) (e : span * (Z * Z)) (i : Z) : Prop :=
  fst (fst e) * s + (fst (snd e) * s) / 2 <= i < snd (fst e) * s.

Definition span_within (n : Z) (e : span * (Z * Z)) : Prop :=
  0 <= fst (fst e) < snd (fst e) /\ snd (fst e) <= n /\
  0 <= fst (snd e) /\ 0 <= snd (snd e).

(** Some scaled tile of the list assigns cell [(i, j)]. *)
Definition stitched (h w : Z) (pairs : list (Tile * Tile)) (i j : Z) : bool :=
  existsb (fun p => stitch_region h w (snd p) i j) pairs.

(** The sample that the conversion of lines 125-126 stores for a cell of the
    input tensor once it is in the model's dtype. *)
Definition quantized {F} `{TorchFloat F} (image_tensor : Tensor4 F) (ch i j : Z) : Z :=
  to_uint8 (mul_255 (clamp_0_1 (to_dtype (at4 image_tensor 0 ch i j)))).

(** ** A small configuration

    A 4x4 RGBA image, 3x3 tiles with an overlap of 2, the identity model and
    a model that doubles the resolution, over exact rationals. *)
Module Example.

Definition rows : list span := [(0, 3); (1, 4)].
Definition tiles : list Tile := grid_tiles rows rows.

Definition pixel (i j b : Z) : Z := (16 * i + 4 * j + b + 200) mod 256.
Definition rgba : PilImage := mkPilImage ModeRGBA 4 4 pixel.
Definition rgb : PilImage := mkPilImage ModeRGB 4 4 pixel.

Definition identity : SpandrelImageToImageModel Q := mkModel 1 (fun _ x => Ok x).

(** Nearest-neighbour doubling. *)
Definition doubling : SpandrelImageToImageModel Q :=
  mkModel 2
    (fun _ x =>
       let '(n, c, h, w) := shape4 x in
       Ok (mkTensor4 (n, c, 2 * h, 2 * w)
             (fun b ch i j => at4 x b ch (i / 2) (j / 2)))).

(** A model that fails from its third call on. *)
Definition failing : SpandrelImageToImageModel Q :=
  mkModel 1 (fun n x => if (n <? 2)%nat then Ok x else Raise (ModelError "out of memory"%string)).

Definition grid (h w th tw ov : Z) : result (list Tile) := Ok tiles.

(** Two image services over one stored image: the first converts it when
    mode RGB is asked for, the second hands it over in the mode it is stored
    in, whatever mode is asked for. *)
Definition converting (stored : PilImage) (name : string) (m : PilMode) : PilImage :=
  match m with
  | ModeRGB => convert_rgb stored
  | _ => stored
  end.
Definition keeping (stored : PilImage) (name : string) (m : PilMode) : PilImage :=
  stored.

Definition context (m : SpandrelImageToImageModel Q) (cancel : nat -> bool)
  : InvocationContext Q :=
  mkContext (converting rgba) (fun _ => IsSpandrelImageToImageModel m) cancel.

Definition keeping_context (m : SpandrelImageToImageModel Q) (cancel : nat -> bool)
  : InvocationContext Q :=
  mkContext (keeping rgba) (fun _ => IsSpandrelImageToImageModel m) cancel.

Definition self : SpandrelImageToImageInvocation := mkInvocation "img"%string "model"%string 3.
Definition self_untiled : SpandrelImageToImageInvocation :=
  mkInvocation "img"%string "model"%string 0.

Definition never (n : nat) : bool := false.
Definition at_poll (k n : nat) : bool := Nat.eqb n k.

End Example.

(** ** Further notions: traces of the loop, models that scale their input *)

(** The trace after [k] iterations that got past the poll. *)
Definition after_tiles (k : nat) (tr : trace) : trace := Nat.iter k after_tile tr.

(** A model whose [run] never fails and returns a tensor [scale] times as
    high and as wide as its input, with the same batch size and channels. *)
Definition scales_output {F} (m : SpandrelImageToImageModel F) : Prop :=
  forall (k : nat) (x : Tensor4 F) n c h w,
    shape4 x = (n, c, h, w) ->
    exists o, run m k x = Ok o /\ shape4 o = (n, c, h * scale m, w * scale m).

(** The converted tile does not fit the stitch region of [scaled_tile]: its
    trimmed rows (or columns) are neither as many as the region's nor a
    single one, or its channels are neither those of the output tensor nor a
    single one. *)
Definition tile_misfit (c : Z) (scaled_tile : Tile) (oh ow oc : Z) : Prop :=
  let tile_height := bottom (coords scaled_tile) - top (coords scaled_tile) in
  let tile_width := right (coords scaled_tile) - left (coords scaled_tile) in
  let top_overlap := top (overlap scaled_tile) / 2 in
  let left_overlap := left (overlap scaled_tile) / 2 in
  (top_overlap < tile_height /\ oh <> tile_height /\ oh <> top_overlap + 1) \/
  (left_overlap < tile_width /\ ow <> tile_width /\ ow <> left_overlap + 1) \/
  (oc <> c /\ oc <> 1).

(** Tiles are told apart by the corner [(coords.top, coords.left)]. *)
Definition distinct_corners (tiles : list Tile) : Prop :=
  forall a b, In a tiles -> In b tiles ->
              key_top a = key_top b -> key_left a = key_left b -> a = b.

Module ExampleRGB.

(** The configuration of [Example] with the image stored in mode RGB. *)
Definition context (m : SpandrelImageToImageModel Q) (cancel : nat -> bool)
  : InvocationContext Q :=
  mkContext (fun _ _ => Example.rgb) (fun _ => IsSpandrelImageToImageModel m) cancel.

(** A context whose loader hands back a model of another kind. *)
Definition other_context : InvocationContext Q :=
  mkContext (fun _ _ => Example.rgb) (fun _ => IsOtherModel) Example.never.

(** A tile generator that fails, and one that returns no tile. *)
Definition failing_grid (h w th tw ov : Z) : result (list Tile) := Raise AssertionError.
Definition empty_grid (h w th tw ov : Z) : result (list Tile) := Ok [].

(** A model of scale 1 whose output is five rows higher than its input. *)
Definition stretching : SpandrelImageToImageModel Q :=
  mkModel 1
    (fun _ x =>
       let '(n, c, h, w) := shape4 x in
       Ok (mkTensor4 (n, c, h + 5, w) (at4 x))).

End ExampleRGB.

(** ** IEEE 754 sample types

    The model's dtype may be a binary floating-point format, whose product
    is rounded to the nearest representable value (ties to even).  Values
    are [spec_float]s of precision [prec] and exponent bound [emax]. *)

Section BinaryFloat.
Variable prec emax : Z.

Definition SF_of_Z (n : Z) : spec_float := binary_normalize prec emax n 0 false.

(** [.clamp(0, 1)]: a NaN compares with nothing and stays. *)
Definition SFclamp_0_1 (x : spec_float) : spec_float :=
  if SFltb x (SF_of_Z 0) then SF_of_Z 0
  else if SFltb (SF_of_Z 1) x then SF_of_Z 1
  else x.

(** The integer part of a finite value, towards zero.  The conversion of an
    infinity or of a NaN to an integer is not defined; 0 stands for it. *)
Definition SFtrunc (x : spec_float) : Z :=
  match x with
  | S754_finite s m e => cond_Zopp s (Z.shiftl (Zpos m) e)
  | S754_zero _ | S754_infinity _ | S754_nan => 0
  end.

Definition BinaryFloat : TorchFloat spec_float := {|
  of_uint8 := fun b => SFdiv prec emax (SF_of_Z b) (SF_of_Z 255);
  to_dtype := fun x => x;
  clamp_0_1 := SFclamp_0_1;
  mul_255 := fun x => SFmul prec emax x (SF_of_Z 255);
  trunc := SFtrunc
|}.

End BinaryFloat.

(** [torch.float16]: 11 bits of precision, exponents below 16. *)
Definition Binary16 : TorchFloat spec_float := BinaryFloat 11 16.

(** The rational number a finite float stands for. *)
Definition SF2Q (x : spec_float) : Q :=
  match x with
  | S754_finite s m e => (inject_Z (cond_Zopp s (Zpos m)) * Qpower 2 e)%Q
  | S754_zero _ | S754_infinity _ | S754_nan => 0%Q
  end.

(** The byte the claim names for a sample [v]: floor(clamp(v, 0, 1) * 255). *)
Definition floor_quantize (v : Q) : Z := Qfloor (Qclamp_0_1 v * 255).

Module ExampleFloat.

(** 257 / 65536, a binary16 value, and a model output of one such sample. *)
Definition sample : spec_float := S754_finite false 1028 (-18).
Definition output : Tensor4 spec_float := mkTensor4 (1, 1, 1, 1) (fun _ _ _ _ => sample).

(** A model output with exact samples: 1 and 25499 / 25500. *)
Definition exact_output : Tensor4 Q :=
  mkTensor4 (1, 1, 1, 2) (fun _ _ _ j => if j =? 0 then 1%Q else (25499 # 25500)%Q).

End ExampleFloat.
(** ** Facts about the ordering *)

Section SortedFacts.
Context {A : Type} (key : A -> Z).

Lemma insert_by_perm (x : A) (l : list A) :
  Permutation (insert_by key x l) (x :: l).
Proof.
  induction l as [|y l IH]; simpl; [reflexivity|].
  destruct (key x <=? key y); [reflexivity|].
  rewrite IH. apply perm_swap.
Qed.

Lemma sorted_perm (l : list A) : Permutation (sorted key l) l.
Proof.
  induction l as [|x l IH]; simpl; [constructor|].
  rewrite insert_by_perm. now constructor.
Qed.

Lemma insert_by_Forall (P : A -> Prop) (x : A) (l : list A) :
  P x -> Forall P l -> Forall P (insert_by key x l).
Proof.
  intros Hx Hl. eapply Permutation_Forall.
  - symmetry. apply insert_by_perm.
  - now constructor.
Qed.

Lemma insert_by_sorted (x : A) (l : list A) :
  StronglySorted (key_le key) l ->
  StronglySorted (key_le key) (insert_by key x l).
Proof.
  induction 1 as [|y l Hs IH Hy]; simpl.
  - repeat constructor.
  - destruct (key x <=? key y) eqn:E.
    + apply Z.leb_le in E. constructor; [now constructor|].
      constructor; [exact E|].
      eapply Forall_impl; [|exact Hy].
      unfold key_le; intros; lia.
    + apply Z.leb_gt in E. constructor; [exact IH|].
      apply insert_by_Forall; [unfold key_le; lia | exact Hy].
Qed.

Lemma sorted_sorted (l : list A) : StronglySorted (key_le key) (sorted key l).
Proof.
  induction l as [|x l IH]; simpl; [constructor|].
  now apply insert_by_sorted.
Qed.

Lemma insert_by_filter (k : Z) (x : A) (l : list A) :
  filter (fun a => key a =? k) (insert_by key x l) =
  filter (fun a => key a =? k) (x :: l).
Proof.
  induction l as [|y l IH]; [reflexivity|].
  cbn [insert_by]. destruct (key x <=? key y) eqn:E; [reflexivity|].
  apply Z.leb_gt in E. cbn [filter] in *. rewrite IH.
  destruct (key x =? k) eqn:Ex, (key y =? k) eqn:Ey; try reflexivity.
  apply Z.eqb_eq in Ex, Ey. lia.
Qed.

Lemma sorted_filter (k : Z) (l : list A) :
  filter (fun a => key a =? k) (sorted key l) =
  filter (fun a => key a =? k) l.
Proof.
  induction l as [|x l IH]; [reflexivity|].
  cbn [sorted]. rewrite insert_by_filter. cbn [filter]. now rewrite IH.
Qed.

Lemma sorted_is_stable_sort (l : list A) : is_stable_sort key l (sorted key l).
Proof.
  split; [apply sorted_perm|].
  split; [apply sorted_sorted|].
  intros k. apply sorted_filter.
Qed.

(** Two key-sorted lists with the same elements of every key, in the same
    order, are equal. *)
Lemma sorted_lists_eq (l1 : list A) :
  forall l2,
    StronglySorted (key_le key) l1 ->
    StronglySorted (key_le key) l2 ->
    (forall k, filter (fun a => key a =? k) l1 =
               filter (fun a => key a =? k) l2) ->
    l1 = l2.
Proof.
  induction l1 as [|x l1 IH]; intros l2 S1 S2 HF.
  - destruct l2 as [|y l2]; [reflexivity|].
    specialize (HF (key y)). cbn in HF. rewrite Z.eqb_refl in HF.
    discriminate.
  - destruct l2 as [|y l2].
    + specialize (HF (key x)). cbn in HF. rewrite Z.eqb_refl in HF.
      discriminate.
    + inversion S1 as [|? ? S1' F1]; subst.
      inversion S2 as [|? ? S2' F2]; subst.
      assert (Hnone : forall (a : A) (l : list A) (k : Z),
                 Forall (key_le key a) l -> k < key a ->
                 filter (fun b => key b =? k) l = []).
      { intros a l k Hl Hk. induction Hl as [|b l Hb _ IHl]; [reflexivity|].
        cbn. unfold key_le in Hb.
        destruct (key b =? k) eqn:Eb; [apply Z.eqb_eq in Eb; lia | exact IHl]. }
      assert (Hk : key x = key y).
      { destruct (Z.lt_trichotomy (key x) (key y)) as [Hlt|[Heq|Hgt]];
          [|exact Heq|].
        - specialize (HF (key x)). cbn in HF. rewrite Z.eqb_refl in HF.
          destruct (key y =? key x) eqn:Ey; [apply Z.eqb_eq in Ey; lia|].
          rewrite (Hnone y l2 (key x) F2 Hlt) in HF. discriminate.
        - specialize (HF (key y)). cbn in HF. rewrite Z.eqb_refl in HF.
          destruct (key x =? key y) eqn:Ex; [apply Z.eqb_eq in Ex; lia|].
          rewrite (Hnone x l1 (key y) F1 Hgt) in HF. discriminate. }
      assert (Hxy : x = y).
      { specialize (HF (key x)). cbn in HF. rewrite <- Hk in HF.
        rewrite Z.eqb_refl in HF. now inversion HF. }
      subst y. f_equal. apply IH; [assumption..|].
      intros k. specialize (HF k). cbn in HF.
      destruct (key x =? k); [now inversion HF | exact HF].
Qed.

(** Any stable sort of [l] by [key] is [sorted key l]. *)
Lemma sorted_unique (l l' : list A) :
  is_stable_sort key l l' -> l' = sorted key l.
Proof.
  intros (_ & Hs & Hf). apply sorted_lists_eq; [exact Hs | apply sorted_sorted |].
  intros k. now rewrite Hf, sorted_filter.
Qed.

End SortedFacts.

(** Inserting by [top] a tile whose [left] is below that of every tile of a
    row-major list keeps the list row-major. *)
Lemma insert_top_row_major (x : Tile) (l : list Tile) :
  StronglySorted row_major_le l ->
  Forall (fun y => key_left x <= key_left y) l ->
  StronglySorted row_major_le (insert_by key_top x l).
Proof.
  induction 1 as [|y l Hs IH Hy]; intros Hx; simpl.
  - repeat constructor.
  - inversion Hx as [|? ? Hxy Hxl]; subst.
    destruct (key_top x <=? key_top y) eqn:E.
    + apply Z.leb_le in E. constructor; [now constructor|].
      constructor.
      * unfold row_major_le. lia.
      * rewrite Forall_forall in Hy, Hxl |- *. intros z Hz.
        specialize (Hy z Hz). specialize (Hxl z Hz).
        unfold row_major_le in *. lia.
    + apply Z.leb_gt in E. constructor; [now apply IH|].
      apply insert_by_Forall; [unfold row_major_le; lia | exact Hy].
Qed.

Lemma sorted_top_row_major (l : list Tile) :
  StronglySorted (key_le key_left) l ->
  StronglySorted row_major_le (sorted key_top l).
Proof.
  induction 1 as [|x l Hs IH Hx]; simpl; [constructor|].
  apply insert_top_row_major; [exact IH|].
  eapply Permutation_Forall; [symmetry; apply sorted_perm | exact Hx].
Qed.

(** The ordering step returns a permutation of its input in row-major
    order. *)
Lemma order_tiles_sorted (tiles : list Tile) :
  Permutation (order_tiles tiles) tiles /\
  StronglySorted row_major_le (order_tiles tiles).
Proof.
  unfold order_tiles. split.
  - now rewrite !sorted_perm.
  - apply sorted_top_row_major, sorted_sorted.
Qed.

(** C3.  The ordering step of [invoke] returns a permutation of the tile
    list that is in row-major order: [coords.top] is non-decreasing along the
    list and, between tiles of equal [coords.top], [coords.left] is
    non-decreasing; it is the stable sort by [coords.top] of the stable sort
    by [coords.left] of the input. *)
Theorem order_tiles_row_major (tiles : list Tile) :
  Permutation (order_tiles tiles) tiles /\
  StronglySorted row_major_le (order_tiles tiles) /\
  exists by_left,
    is_stable_sort key_left tiles by_left /\
    is_stable_sort key_top by_left (order_tiles tiles).
Proof.
  unfold order_tiles. split; [|split].
  - now rewrite !sorted_perm.
  - apply sorted_top_row_major, sorted_sorted.
  - exists (sorted key_left tiles). split; apply sorted_is_stable_sort.
Qed.

(** C4.  [_scale_tile] returns a tile whose coordinates and overlaps are
    those of its argument multiplied by the scale, for every integer scale
    [S >= 1]; the call allocates its result and leaves the argument, and every
    other tile of the store, as it was. *)
Theorem scale_tile_fields (s : Store.store) (p : Store.loc) (tile : Tile) (S : Z) :
  Store.deref s p = Some tile ->
  1 <= S ->
  exists s' p',
    Store.scale_tile_ref s p S = Some (s', p') /\
    Store.deref s' p' = Some (_scale_tile tile S) /\
    coords (_scale_tile tile S) = tblr_mul (coords tile) S /\
    overlap (_scale_tile tile S) = tblr_mul (overlap tile) S /\
    top (coords (_scale_tile tile S)) = top (coords tile) * S /\
    bottom (coords (_scale_tile tile S)) = bottom (coords tile) * S /\
    left (coords (_scale_tile tile S)) = left (coords tile) * S /\
    right (coords (_scale_tile tile S)) = right (coords tile) * S /\
    Store.deref s' p = Some tile /\
    (forall q t, Store.deref s q = Some t -> Store.deref s' q = Some t) /\
    p' <> p.
Proof.
  intros Hp _. unfold Store.scale_tile_ref, Store.alloc, Store.deref in *.
  rewrite Hp. eexists _, _. split; [reflexivity|].
  assert (Hlt : (p < length s)%nat) by (apply nth_error_Some; congruence).
  repeat split.
  - now rewrite nth_error_app2, Nat.sub_diag by lia.
  - rewrite nth_error_app1 by exact Hlt. exact Hp.
  - intros q t Hq. rewrite nth_error_app1; [exact Hq|].
    apply nth_error_Some. congruence.
  - lia.
Qed.

Lemma scale_tile_fields_witness :
  exists s' p',
    Store.scale_tile_ref
      [mkTile (mkTBLR 0 128 108 236) (mkTBLR 0 20 20 0)] 0%nat 2 = Some (s', p') /\
    Store.deref s' p' = Some (mkTile (mkTBLR 0 256 216 472) (mkTBLR 0 40 40 0)).
Proof.
  destruct (scale_tile_fields
              [mkTile (mkTBLR 0 128 108 236) (mkTBLR 0 20 20 0)] 0%nat
              (mkTile (mkTBLR 0 128 108 236) (mkTBLR 0 20 20 0)) 2
              eq_refl ltac:(lia))
    as (s' & p' & H1 & H2 & _).
  exists s', p'. split; [exact H1 | exact H2].
Defined.

(** ** Slices and the stitch of one tile *)

Lemma slice_indices_within (a b n : Z) :
  0 <= a -> 0 <= b <= n ->
  slice_indices (Some a, Some b) n = (Z.min a n, Z.max 0 (b - Z.min a n)).
Proof.
  intros Ha Hb. unfold slice_indices, adjust_index. cbn [fst snd].
  destruct (a <? 0) eqn:Ea; [apply Z.ltb_lt in Ea; lia|].
  destruct (b <? 0) eqn:Eb; [apply Z.ltb_lt in Eb; lia|].
  f_equal. lia.
Qed.

Lemma slice_indices_from (a n : Z) :
  0 <= a ->
  slice_indices (Some a, None) n = (Z.min a n, Z.max 0 (n - Z.min a n)).
Proof.
  intros Ha. unfold slice_indices, adjust_index. cbn [fst snd].
  destruct (a <? 0) eqn:Ea; [apply Z.ltb_lt in Ea; lia|]. reflexivity.
Qed.

Lemma in_range_iff (start len i : Z) :
  in_range start len i = true <-> start <= i < start + len.
Proof. unfold in_range. rewrite andb_true_iff, Z.leb_le, Z.ltb_lt. tauto. Qed.

Lemma stitch_region_iff (h w : Z) (t : Tile) (i j : Z) :
  tile_within h w t ->
  stitch_region h w t i j = true <->
  top (coords t) + top (overlap t) / 2 <= i < bottom (coords t) /\
  left (coords t) + left (overlap t) / 2 <= j < right (coords t).
Proof.
  intros (Ht & Hb & Hl & Hr & Hot & Hol). unfold stitch_region.
  pose proof (Z.div_pos (top (overlap t)) 2 Hot ltac:(lia)) as Htt.
  pose proof (Z.div_pos (left (overlap t)) 2 Hol ltac:(lia)) as Hlt.
  rewrite !slice_indices_within by lia.
  rewrite andb_true_iff, !in_range_iff. lia.
Qed.

(** The assignment of [merge_tile] goes through when the converted tile has
    the size of the scaled tile, and copies the tile from its trimmed top-left
    corner on. *)
Lemma merge_tile_within
  (output_tensor : Tensor3 Z) (scaled_tile : Tile) (output_tile : Tensor3 Z)
  (h w c : Z) :
  shape3 output_tensor = (h, w, c) ->
  tile_within h w scaled_tile ->
  shape3 output_tile =
    (bottom (coords scaled_tile) - top (coords scaled_tile),
     right (coords scaled_tile) - left (coords scaled_tile), c) ->
  exists output_tensor',
    merge_tile output_tensor scaled_tile output_tile = Some output_tensor' /\
    shape3 output_tensor' = (h, w, c) /\
    forall i j ch, 0 <= ch < c ->
      at3 output_tensor' i j ch =
      if stitch_region h w scaled_tile i j
      then at3 output_tile (i - top (coords scaled_tile))
                           (j - left (coords scaled_tile)) ch
      else at3 output_tensor i j ch.
Proof.
  intros Hd Hw Ho. pose proof Hw as (Ht & Hb & Hl & Hr & Hot & Hol).
  pose proof (Z.div_pos (top (overlap scaled_tile)) 2 Hot ltac:(lia)) as Htt.
  pose proof (Z.div_pos (left (overlap scaled_tile)) 2 Hol ltac:(lia)) as Hlt.
  destruct output_tensor as [sd fd], output_tile as [so fo]. cbn in Hd, Ho. subst sd so.
  unfold merge_tile, setitem3, getitem3, stitch_region. cbn [shape3 at3].
  rewrite !slice_indices_within by lia.
  rewrite !slice_indices_from by lia.
  cbn [shape3 at3].
  set (tt := top (overlap scaled_tile) / 2) in *.
  set (lt := left (overlap scaled_tile) / 2) in *.
  set (T := top (coords scaled_tile)) in *. set (B := bottom (coords scaled_tile)) in *.
  set (L := left (coords scaled_tile)) in *. set (R := right (coords scaled_tile)) in *.
  assert (E1 : broadcastable (Z.max 0 (B - T - Z.min tt (B - T)))
                             (Z.max 0 (B - Z.min (T + tt) h)) = true).
  { unfold broadcastable. apply orb_true_iff. left. apply Z.eqb_eq. lia. }
  assert (E2 : broadcastable (Z.max 0 (R - L - Z.min lt (R - L)))
                             (Z.max 0 (R - Z.min (L + lt) w)) = true).
  { unfold broadcastable. apply orb_true_iff. left. apply Z.eqb_eq. lia. }
  assert (E3 : broadcastable c c = true).
  { unfold broadcastable. now rewrite Z.eqb_refl. }
  rewrite E1, E2, E3. cbn [andb].
  eexists. split; [reflexivity|]. split; [reflexivity|].
  intros i j ch Hch. cbn [at3].
  destruct (in_range (Z.min (T + tt) h) (Z.max 0 (B - Z.min (T + tt) h)) i
            && in_range (Z.min (L + lt) w) (Z.max 0 (R - Z.min (L + lt) w)) j) eqn:E;
    [|reflexivity].
  apply andb_true_iff in E. destruct E as [Ei Ej].
  apply in_range_iff in Ei, Ej.
  unfold broadcast_index.
  assert (Hc : (if c =? 1 then 0 else ch) = ch).
  { destruct (c =? 1) eqn:Ec; [apply Z.eqb_eq in Ec; lia | reflexivity]. }
  rewrite Hc. f_equal.
  - destruct (Z.max 0 (B - T - Z.min tt (B - T)) =? 1) eqn:E; [apply Z.eqb_eq in E|]; lia.
  - destruct (Z.max 0 (R - L - Z.min lt (R - L)) =? 1) eqn:E; [apply Z.eqb_eq in E|]; lia.
Qed.

(** Whatever the tile, an assignment that goes through keeps the shape,
    leaves the cells outside the stitch region as they were, and fills the
    region with cells of the tile, whatever the tensor held before. *)
Lemma merge_tile_some (d d' : Tensor3 Z) (scaled_tile : Tile) (ot : Tensor3 Z)
  (h w c : Z) :
  merge_tile d scaled_tile ot = Some d' ->
  shape3 d = (h, w, c) ->
  shape3 d' = (h, w, c) /\
  (forall i j ch, stitch_region h w scaled_tile i j = false ->
                  at3 d' i j ch = at3 d i j ch) /\
  (forall i j ch, stitch_region h w scaled_tile i j = true ->
                  exists a b k, at3 d' i j ch = at3 ot a b k) /\
  (forall e, shape3 e = (h, w, c) ->
     exists e',
       merge_tile e scaled_tile ot = Some e' /\
       forall i j ch, stitch_region h w scaled_tile i j = true ->
                      at3 e' i j ch = at3 d' i j ch).
Proof.
  intros Hm Hd. destruct d as [sd fd]. cbn in Hd. subst sd.
  unfold merge_tile, setitem3, stitch_region in *. cbn [shape3 at3] in *.
  destruct (slice_indices
              (Some (top (coords scaled_tile) + top (overlap scaled_tile) / 2),
               Some (bottom (coords scaled_tile))) h) as [r0 rn] eqn:Er.
  destruct (slice_indices
              (Some (left (coords scaled_tile) + left (overlap scaled_tile) / 2),
               Some (right (coords scaled_tile))) w) as [c0 cn] eqn:Ecl.
  destruct (shape3 (getitem3 ot (Some (top (overlap scaled_tile) / 2), None)
                                (Some (left (overlap scaled_tile) / 2), None)))
    as [[sh sw] sc] eqn:Es.
  destruct (broadcastable sh rn && broadcastable sw cn && broadcastable sc c) eqn:Eb;
    [|discriminate].
  inversion Hm; subst d'; clear Hm. cbn [shape3 at3].
  split; [reflexivity|]. split; [|split].
  - intros i j ch E. now rewrite E.
  - intros i j ch E. rewrite E. unfold getitem3.
    destruct (shape3 ot) as [[oh ow] oc].
    destruct (slice_indices (Some (top (overlap scaled_tile) / 2), None) oh).
    destruct (slice_indices (Some (left (overlap scaled_tile) / 2), None) ow).
    cbn [at3]. eauto.
  - intros [se fe] He. cbn in He. subst se. cbn [shape3 at3].
    rewrite Er, Ecl, Eb. eexists. split; [reflexivity|].
    intros i j ch E. cbn [at3]. now rewrite E.
Qed.

(** Every cell of a converted tile is an 8-bit sample. *)
Lemma convert_output_tile_byte {F} `{TorchFloat F} (o : Tensor4 F) (ot : Tensor3 Z) :
  convert_output_tile o = Some ot ->
  forall a b k, 0 <= at3 ot a b k < 256.
Proof.
  unfold convert_output_tile. destruct (squeeze0 o) as [t|]; [|discriminate].
  intros E a b k. inversion E; subst ot; clear E.
  cbn [tmap3 at3]. unfold to_uint8. apply Z.mod_pos_bound. lia.
Qed.

(** ** The loop *)

Section LoopFacts.
Context {F : Type} `{TorchFloat F}.
Variable context : InvocationContext F.
Variable spandrel_model : SpandrelImageToImageModel F.
Variable image_tensor : Tensor4 F.

Lemma process_tile_eq (tile scaled_tile : Tile) (d : Tensor3 Z) (tr : trace) :
  process_tile context spandrel_model image_tensor tile scaled_tile d tr =
  if is_canceled_at context (count is_poll tr)
  then (Raise CanceledException, EvPoll true :: tr)
  else
    match run spandrel_model (count is_run tr) (extract_tile image_tensor tile) with
    | Raise e => (Raise e, after_tile tr)
    | Ok o =>
        match convert_output_tile o with
        | None => (Raise RuntimeError, after_tile tr)
        | Some ot =>
            match merge_tile d scaled_tile ot with
            | None => (Raise RuntimeError, after_tile tr)
            | Some d' => (Ok d', after_tile tr)
            end
        end
    end.
Proof.
  unfold process_tile, bind, is_canceled, model_run, or_raise, ret, raise, after_tile.
  destruct (is_canceled_at context (count is_poll tr)); [reflexivity|].
  change (count is_run (EvPoll false :: tr)) with (count is_run tr).
  destruct (run spandrel_model (count is_run tr) (extract_tile image_tensor tile))
    as [o|e]; [|reflexivity].
  destruct (convert_output_tile o) as [ot|]; [|reflexivity].
  destruct (merge_tile d scaled_tile ot); reflexivity.
Qed.

(** An iteration that returns was not cancelled, ran the model once, and
    stitched the converted tile. *)
Lemma process_tile_ok (tile scaled_tile : Tile) (d d' : Tensor3 Z) (tr tr' : trace) :
  process_tile context spandrel_model image_tensor tile scaled_tile d tr = (Ok d', tr') ->
  is_canceled_at context (count is_poll tr) = false /\
  tr' = after_tile tr /\
  exists o ot,
    run spandrel_model (count is_run tr) (extract_tile image_tensor tile) = Ok o /\
    convert_output_tile o = Some ot /\
    merge_tile d scaled_tile ot = Some d'.
Proof.
  rewrite process_tile_eq.
  destruct (is_canceled_at context (count is_poll tr)); [discriminate|].
  destruct (run spandrel_model (count is_run tr) (extract_tile image_tensor tile))
    as [o|e]; [|discriminate].
  destruct (convert_output_tile o) as [ot|] eqn:Ec; [|discriminate].
  destruct (merge_tile d scaled_tile ot) as [d1|] eqn:Em; [|discriminate].
  intros E. inversion E; subst. split; [reflexivity|]. split; [reflexivity|].
  exists o, ot. auto.
Qed.

Lemma process_tiles_cons (tile scaled_tile : Tile) (pairs : list (Tile * Tile))
  (d : Tensor3 Z) (tr : trace) :
  process_tiles context spandrel_model image_tensor ((tile, scaled_tile) :: pairs) d tr =
  match process_tile context spandrel_model image_tensor tile scaled_tile d tr with
  | (Ok d', tr') => process_tiles context spandrel_model image_tensor pairs d' tr'
  | (Raise e, tr') => (Raise e, tr')
  end.
Proof. reflexivity. Qed.

Lemma count_after_tile (tr : trace) :
  count is_poll (after_tile tr) = S (count is_poll tr) /\
  count is_run (after_tile tr) = S (count is_run tr) /\
  count is_save (after_tile tr) = count is_save tr /\
  count is_tilegrid (after_tile tr) = count is_tilegrid tr.
Proof. repeat split. Qed.

(** The loop over a list and then over another is the loop over both. *)
Lemma process_tiles_app (l1 l2 : list (Tile * Tile)) (d : Tensor3 Z) (tr : trace) :
  process_tiles context spandrel_model image_tensor (l1 ++ l2) d tr =
  match process_tiles context spandrel_model image_tensor l1 d tr with
  | (Ok d', tr') => process_tiles context spandrel_model image_tensor l2 d' tr'
  | (Raise e, tr') => (Raise e, tr')
  end.
Proof.
  revert d tr. induction l1 as [|[t st] l1 IH]; intros d tr; [reflexivity|].
  rewrite <- app_comm_cons, !process_tiles_cons.
  destruct (process_tile context spandrel_model image_tensor t st d tr) as [[d'|e] tr'];
    [apply IH | reflexivity].
Qed.

(** A loop that returns polled and ran the model once per tile, and did
    nothing else. *)
Lemma process_tiles_ok_trace (pairs : list (Tile * Tile)) :
  forall (d d' : Tensor3 Z) (tr tr' : trace),
    process_tiles context spandrel_model image_tensor pairs d tr = (Ok d', tr') ->
    count is_poll tr' = (count is_poll tr + List.length pairs)%nat /\
    count is_run tr' = (count is_run tr + List.length pairs)%nat /\
    count is_save tr' = count is_save tr /\
    count is_tilegrid tr' = count is_tilegrid tr /\
    shape3 d' = shape3 d.
Proof.
  induction pairs as [|[t st] pairs IH]; intros d d' tr tr' E.
  - inversion E; subst. cbn [List.length]. rewrite !Nat.add_0_r. auto.
  - rewrite process_tiles_cons in E.
    destruct (process_tile context spandrel_model image_tensor t st d tr)
      as [[d1|e] tr1] eqn:E1; [|discriminate].
    apply process_tile_ok in E1. destruct E1 as (_ & -> & o & ot & _ & _ & Hm).
    apply IH in E. destruct E as (Hp & Hr & Hs & Hg & Hsh).
    destruct (count_after_tile tr) as (Cp & Cr & Cs & Cg).
    rewrite Cp in Hp. rewrite Cr in Hr. rewrite Cs in Hs. rewrite Cg in Hg.
    cbn [List.length]. repeat split; try lia.
    rewrite Hsh. destruct (shape3 d) as [[h w] c] eqn:Ed.
    now destruct (merge_tile_some _ _ _ _ _ _ _ Hm Ed) as (-> & _).
Qed.

(** However the loop ends, it only polls and runs the model: at most one
    poll and one run per tile, never more runs than polls. *)
Lemma process_tiles_trace (pairs : list (Tile * Tile)) :
  forall (d : Tensor3 Z) (tr : trace) r tr',
    process_tiles context spandrel_model image_tensor pairs d tr = (r, tr') ->
    (count is_poll tr <= count is_poll tr' <= count is_poll tr + List.length pairs)%nat /\
    (count is_run tr <= count is_run tr' <= count is_run tr + List.length pairs)%nat /\
    count is_save tr' = count is_save tr /\
    count is_tilegrid tr' = count is_tilegrid tr.
Proof.
  induction pairs as [|[t st] pairs IH]; intros d tr r tr' E.
  - inversion E; subst. cbn [List.length]. lia.
  - rewrite process_tiles_cons, process_tile_eq in E. cbn [List.length].
    destruct (is_canceled_at context (count is_poll tr)).
    { inversion E; subst. unfold count.
      cbn [filter is_poll is_run is_save is_tilegrid List.length]. lia. }
    destruct (count_after_tile tr) as (Cp & Cr & Cs & Cg).
    destruct (run spandrel_model (count is_run tr) (extract_tile image_tensor t))
      as [o|e]; [|inversion E; subst; lia].
    destruct (convert_output_tile o) as [ot|]; [|inversion E; subst; lia].
    destruct (merge_tile d st ot) as [d1|]; [|inversion E; subst; lia].
    apply IH in E. lia.
Qed.

End LoopFacts.

(** ** The invocation around the loop *)

Lemma zip_strict_map {A B} (f : A -> B) (l : list A) :
  zip_strict l (map f l) = Some (map (fun a => (a, f a)) l).
Proof.
  induction l as [|a l IH]; [reflexivity|]. cbn. now rewrite IH.
Qed.

Section InvokeFacts.
Context {F : Type} `{TorchFloat F}.
Variable calc_tiles_min_overlap : Z -> Z -> Z -> Z -> Z -> result (list Tile).
Variable context : InvocationContext F.
Variable self : SpandrelImageToImageInvocation.

Let the_image : PilImage := images_get_pil context (image self) ModeRGB.

(** Computing the tiles polls nothing, runs nothing, saves nothing. *)
Lemma compute_tiles_trace (img : PilImage) (tr tr1 : trace) r :
  compute_tiles calc_tiles_min_overlap self img tr = (r, tr1) ->
  count is_poll tr1 = count is_poll tr /\
  count is_run tr1 = count is_run tr /\
  count is_save tr1 = count is_save tr /\
  (count is_tilegrid tr <= count is_tilegrid tr1)%nat /\
  (tile_size self <= 0 -> tr1 = tr).
Proof.
  unfold compute_tiles, tile_grid, ret.
  destruct (tile_size self >? 0) eqn:E; intros E1; inversion E1; subst.
  - apply Z.gtb_lt in E. unfold count.
    cbn [filter is_poll is_run is_save is_tilegrid List.length].
    repeat split; lia.
  - repeat split; lia.
Qed.

(** What [prepare] hands to the loop. *)
Lemma prepare_ok m x pairs d0 (tr tr1 : trace) :
  prepare calc_tiles_min_overlap context self tr = (Ok (m, x, pairs, d0), tr1) ->
  exists tiles,
    compute_tiles calc_tiles_min_overlap self the_image tr = (Ok tiles, tr1) /\
    models_load context (image_to_image_model self) = IsSpandrelImageToImageModel m /\
    allocate_output (scale m) (pil_to_tensor (F:=F) the_image) = Some d0 /\
    x = tmap4 to_dtype (pil_to_tensor the_image) /\
    pairs = map (fun t => (t, _scale_tile t (scale m))) (order_tiles tiles).
Proof.
  unfold prepare, bind. fold the_image.
  destruct (compute_tiles calc_tiles_min_overlap self the_image tr)
    as [[tiles|e] tr0] eqn:Et; [|discriminate].
  destruct (models_load context (image_to_image_model self)) as [m'|]; [|discriminate].
  destruct (allocate_output (scale m') (pil_to_tensor the_image)) as [d|] eqn:Ea;
    [|discriminate].
  cbn [or_raise ret]. rewrite zip_strict_map. cbn [or_raise ret].
  intros E. inversion E; subst. exists tiles. repeat split; auto.
Qed.

Lemma prepare_trace (tr tr1 : trace) r :
  prepare calc_tiles_min_overlap context self tr = (r, tr1) ->
  count is_poll tr1 = count is_poll tr /\
  count is_run tr1 = count is_run tr /\
  count is_save tr1 = count is_save tr /\
  (tile_size self <= 0 -> tr1 = tr).
Proof.
  unfold prepare, bind. fold the_image.
  destruct (compute_tiles calc_tiles_min_overlap self the_image tr)
    as [[tiles|e] tr0] eqn:Et;
    apply compute_tiles_trace in Et; destruct Et as (Hp & Hr & Hs & _ & Hz).
  2:{ intros E; inversion E; subst; auto. }
  destruct (models_load context (image_to_image_model self)) as [m'|].
  2:{ intros E; inversion E; subst; auto. }
  destruct (allocate_output (scale m') (pil_to_tensor the_image)) as [d|].
  2:{ intros E; inversion E; subst; auto. }
  cbn [or_raise ret]. rewrite zip_strict_map. cbn [or_raise ret].
  intros E; inversion E; subst; auto.
Qed.

Lemma invoke_eq (tr : trace) :
  invoke calc_tiles_min_overlap context self tr =
  match prepare calc_tiles_min_overlap context self tr with
  | (Raise e, tr1) => (Raise e, tr1)
  | (Ok (m, x, pairs, d0), tr1) =>
      match process_tiles context m x pairs d0 tr1 with
      | (Raise e, tr2) => (Raise e, tr2)
      | (Ok d, tr2) => finish d tr2
      end
  end.
Proof.
  unfold invoke, bind.
  destruct (prepare calc_tiles_min_overlap context self tr)
    as [[[[[m x] pairs] d0]|e] tr1]; reflexivity.
Qed.

Lemma finish_eq (d : Tensor3 Z) (tr : trace) :
  finish d tr =
  match fromarray (tmap3 (fun v => v mod 256) d) with
  | None => (Raise TypeError, tr)
  | Some img => (Ok (build (mkImageDTO (count is_save tr) img)), EvSave img :: tr)
  end.
Proof.
  unfold finish, bind, or_raise, images_save, ret, raise.
  destruct (fromarray (tmap3 (fun v => v mod 256) d)); reflexivity.
Qed.

(** An image is saved only by [finish], after the loop has returned from
    its last tile. *)
Lemma invoke_saved (r : result ImageOutput) (tr' : trace) (img : PilImage) :
  invoke calc_tiles_min_overlap context self [] = (r, tr') ->
  In (EvSave img) tr' ->
  exists m x pairs d0 tr1 d tr2,
    prepare calc_tiles_min_overlap context self [] = (Ok (m, x, pairs, d0), tr1) /\
    process_tiles context m x pairs d0 tr1 = (Ok d, tr2) /\
    count is_run tr2 = List.length pairs /\
    fromarray (tmap3 (fun v => v mod 256) d) = Some img /\
    tr' = EvSave img :: tr2 /\
    r = Ok (build (mkImageDTO 0 img)).
Proof.
  rewrite invoke_eq.
  assert (Hnosave : forall tr, count is_save tr = 0%nat -> ~ In (EvSave img) tr).
  { intros tr Hc Hin. unfold count in Hc.
    assert (Hin' : In (EvSave img) (filter is_save tr))
      by (apply filter_In; split; [exact Hin | reflexivity]).
    destruct (filter is_save tr); [exact Hin' | discriminate]. }
  destruct (prepare calc_tiles_min_overlap context self [])
    as [[[[[m x] pairs] d0]|e] tr1] eqn:Ep;
    pose proof (prepare_trace _ _ _ Ep) as (Pp & Pr & Ps & _).
  2:{ intros E Hin. inversion E; subst. exfalso. now apply (Hnosave tr'). }
  destruct (process_tiles context m x pairs d0 tr1) as [[d|e] tr2] eqn:El.
  2:{ intros E Hin. inversion E; subst. apply process_tiles_trace in El.
      exfalso. apply (Hnosave tr'); [|exact Hin].
      destruct El as (_ & _ & -> & _). exact Ps. }
  pose proof (process_tiles_ok_trace _ _ _ _ _ _ _ _ El) as (_ & Lr & Ls & _).
  rewrite finish_eq.
  destruct (fromarray (tmap3 (fun v => v mod 256) d)) as [img'|] eqn:Ef.
  2:{ intros E Hin. inversion E; subst. exfalso.
      apply (Hnosave tr'); [|exact Hin]. rewrite Ls. exact Ps. }
  intros E Hin. inversion E; subst.
  destruct Hin as [Hin|Hin].
  2:{ exfalso. apply (Hnosave tr2); [|exact Hin]. rewrite Ls. exact Ps. }
  inversion Hin; subst img'.
  exists m, x, pairs, d0, tr1, d, tr2. repeat split; auto.
  - rewrite Lr, Pr. reflexivity.
  - rewrite Ls, Ps. reflexivity.
Qed.

End InvokeFacts.

(** ** Grids cover the output tensor *)

(** Boolean tests in the hypotheses, as propositions. *)
Ltac bool_hyps :=
  repeat match goal with
         | H : _ && _ = true |- _ => apply andb_true_iff in H; destruct H
         | H : (_ <=? _) = true |- _ => apply Z.leb_le in H
         | H : (_ <? _) = true |- _ => apply Z.ltb_lt in H
         | H : (_ =? _) = true |- _ => apply Z.eqb_eq in H
         end.

Lemma half_le (x : Z) : 0 <= x -> 0 <= x / 2 <= x.
Proof.
  intros Hx. split; [apply Z.div_pos; lia|].
  apply Z.div_le_upper_bound; lia.
Qed.

Lemma axis_linked_writes (n s : Z) (a : list span) :
  0 <= s ->
  forall hp i,
    axis_linked n hp a = true ->
    hp * s <= i < n * s ->
    exists e, In e (axis_overlaps (Some hp) a) /\ span_writes s e i.
Proof.
  intros Hs. induction a as [|[lo hi] a IH]; intros hp i Hl Hi.
  - cbn in Hl. bool_hyps. subst. lia.
  - cbn [axis_linked] in Hl. apply andb_true_iff in Hl. destruct Hl as [Hb Hl].
    bool_hyps.
    destruct (Z_lt_le_dec i (hi * s)) as [Hlt|Hge].
    + eexists. split; [left; reflexivity|].
      unfold span_writes. cbn [fst snd].
      assert (Hm : (hp - lo) * s = hp * s - lo * s) by ring.
      assert (Hle : lo * s <= hp * s) by (apply Z.mul_le_mono_nonneg_r; lia).
      pose proof (half_le ((hp - lo) * s) ltac:(lia)). lia.
    + destruct (IH hi i Hl ltac:(lia)) as (e & He & Hw).
      exists e. split; [right; exact He | exact Hw].
Qed.

Lemma axis_valid_writes (n s : Z) (a : list span) (i : Z) :
  0 <= s ->
  axis_valid n a = true ->
  0 <= i < n * s ->
  exists e, In e (axis_overlaps None a) /\ span_writes s e i.
Proof.
  intros Hs Hv Hi. destruct a as [|[lo hi] a]; [discriminate|].
  cbn [axis_valid] in Hv. apply andb_true_iff in Hv. destruct Hv as [Hb Hl].
  bool_hyps. subst lo.
  destruct (Z_lt_le_dec i (hi * s)) as [Hlt|Hge].
  - eexists. split; [left; reflexivity|].
    unfold span_writes. cbn [fst snd]. cbn. lia.
  - destruct (axis_linked_writes n s a Hs hi i Hl ltac:(lia)) as (e & He & Hw).
    exists e. split; [right; exact He | exact Hw].
Qed.

Lemma axis_linked_within (n : Z) (a : list span) :
  forall hp e,
    axis_linked n hp a = true ->
    In e (axis_overlaps (Some hp) a) -> span_within n e.
Proof.
  induction a as [|[lo hi] a IH]; intros hp e Hl He; [contradiction|].
  cbn [axis_linked] in Hl. apply andb_true_iff in Hl. destruct Hl as [Hb Hl].
  destruct He as [<-|He]; [|now apply (IH hi)].
  unfold span_within. cbn [fst snd].
  destruct a as [|[lo' hi'] a]; [bool_hyps; lia|].
  cbn [axis_linked] in Hl. bool_hyps. lia.
Qed.

Lemma axis_valid_within (n : Z) (a : list span) (e : span * (Z * Z)) :
  axis_valid n a = true ->
  In e (axis_overlaps None a) -> span_within n e.
Proof.
  intros Hv He. destruct a as [|[lo hi] a]; [discriminate|].
  cbn [axis_valid] in Hv. apply andb_true_iff in Hv. destruct Hv as [Hb Hl].
  destruct He as [<-|He]; [|now apply (axis_linked_within n a hi)].
  unfold span_within. cbn [fst snd].
  destruct a as [|[lo' hi'] a]; [bool_hyps; lia|].
  cbn [axis_linked] in Hl. bool_hyps. lia.
Qed.

Lemma in_grid_tiles (rows cols : list span) (t : Tile) :
  In t (grid_tiles rows cols) <->
  exists r c,
    In r (axis_overlaps None rows) /\ In c (axis_overlaps None cols) /\
    t = mkTile (mkTBLR (fst (fst r)) (snd (fst r)) (fst (fst c)) (snd (fst c)))
               (mkTBLR (fst (snd r)) (snd (snd r)) (fst (snd c)) (snd (snd c))).
Proof.
  unfold grid_tiles. rewrite in_flat_map. split.
  - intros (r & Hr & Ht). apply in_map_iff in Ht. destruct Ht as (c & <- & Hc).
    exists r, c. auto.
  - intros (r & c & Hr & Hc & ->). exists r. split; [exact Hr|].
    apply in_map_iff. exists c. auto.
Qed.

Lemma scaled_span_within (n s : Z) (e : span * (Z * Z)) :
  1 <= s -> span_within n e ->
  0 <= fst (fst e) * s <= snd (fst e) * s /\ snd (fst e) * s <= n * s /\
  0 <= fst (snd e) * s.
Proof.
  intros Hs (H0 & H1 & H2 & _).
  repeat split.
  - apply Z.mul_nonneg_nonneg; lia.
  - apply Z.mul_le_mono_nonneg_r; lia.
  - apply Z.mul_le_mono_nonneg_r; lia.
  - apply Z.mul_nonneg_nonneg; lia.
Qed.

(** Every tile of a covering tiling, scaled, lies inside the output tensor. *)
Lemma covering_tiling_within (h w s : Z) (tiles : list Tile) (t : Tile) :
  1 <= s -> covering_tiling h w tiles -> In t tiles ->
  tile_within (h * s) (w * s) (_scale_tile t s).
Proof.
  intros Hs (rows & cols & Hr & Hc & Hp) Ht.
  apply (Permutation_in _ Hp) in Ht. apply in_grid_tiles in Ht.
  destruct Ht as (r & c & Hir & Hic & ->).
  pose proof (scaled_span_within h s r Hs (axis_valid_within _ _ _ Hr Hir)).
  pose proof (scaled_span_within w s c Hs (axis_valid_within _ _ _ Hc Hic)).
  unfold tile_within, _scale_tile. cbn [coords overlap top bottom left right]. lia.
Qed.

(** Every cell of the output tensor is in the stitch region of some tile of a
    covering tiling. *)
Lemma covering_tiling_stitched (h w s : Z) (tiles : list Tile) (i j : Z) :
  1 <= s -> covering_tiling h w tiles ->
  0 <= i < h * s -> 0 <= j < w * s ->
  exists t, In t tiles /\ stitch_region (h * s) (w * s) (_scale_tile t s) i j = true.
Proof.
  intros Hs Hcov Hi Hj. pose proof Hcov as (rows & cols & Hr & Hc & Hp).
  destruct (axis_valid_writes h s rows i ltac:(lia) Hr Hi) as (r & Hir & Hwr).
  destruct (axis_valid_writes w s cols j ltac:(lia) Hc Hj) as (c & Hic & Hwc).
  set (t := mkTile (mkTBLR (fst (fst r)) (snd (fst r)) (fst (fst c)) (snd (fst c)))
                   (mkTBLR (fst (snd r)) (snd (snd r)) (fst (snd c)) (snd (snd c)))).
  assert (Ht : In t tiles).
  { apply (Permutation_in _ (Permutation_sym Hp)). apply in_grid_tiles.
    exists r, c. auto. }
  exists t. split; [exact Ht|].
  apply stitch_region_iff; [now apply (covering_tiling_within h w s tiles)|].
  unfold span_writes in Hwr, Hwc. subst t. cbn [_scale_tile coords overlap top bottom left right].
  lia.
Qed.

Lemma covering_tiling_perm (h w : Z) (tiles tiles' : list Tile) :
  Permutation tiles' tiles -> covering_tiling h w tiles -> covering_tiling h w tiles'.
Proof.
  intros Hp (rows & cols & Hr & Hc & Hg). exists rows, cols.
  repeat split; auto. now rewrite Hp.
Qed.

Lemma valid_tiling_covering (h w min_overlap : Z) (tiles : list Tile) :
  valid_tiling h w min_overlap tiles -> covering_tiling h w tiles.
Proof.
  intros (rows & cols & Hr & Hc & _ & _ & Hg). exists rows, cols. auto.
Qed.

(** The covering invariant as the specification words it: every pixel of the
    image belongs to the coordinates of some tile. *)
Lemma covering_tiling_pixels (h w : Z) (tiles : list Tile) (i j : Z) :
  covering_tiling h w tiles -> 0 <= i < h -> 0 <= j < w ->
  exists t, In t tiles /\
            top (coords t) <= i < bottom (coords t) /\
            left (coords t) <= j < right (coords t).
Proof.
  intros Hcov Hi Hj.
  destruct (covering_tiling_stitched h w 1 tiles i j ltac:(lia) Hcov ltac:(lia) ltac:(lia))
    as (t & Ht & Hs).
  exists t. split; [exact Ht|].
  pose proof (covering_tiling_within h w 1 tiles t ltac:(lia) Hcov Ht) as Hw.
  apply stitch_region_iff in Hs; [|exact Hw].
  destruct Hw as (_ & _ & _ & _ & Hot & Hol).
  cbn [_scale_tile coords overlap top bottom left right] in *.
  pose proof (half_le _ Hot). pose proof (half_le _ Hol). lia.
Qed.

(** The single tile of the untiled case is a covering tiling. *)
Lemma single_tile_covering (h w : Z) :
  0 < h -> 0 < w ->
  covering_tiling h w [ mkTile (mkTBLR 0 h 0 w) (mkTBLR 0 0 0 0) ].
Proof.
  intros Hh Hw. exists [(0, h)], [(0, w)]. cbn.
  rewrite !Z.leb_refl, !Z.eqb_refl.
  destruct (0 <? h) eqn:E1; [|apply Z.ltb_ge in E1; lia].
  destruct (0 <? w) eqn:E2; [|apply Z.ltb_ge in E2; lia].
  repeat split. reflexivity.
Qed.

(** ** What the loop leaves in the output tensor *)

Section WrittenFacts.
Context {F : Type} `{TorchFloat F}.
Variable context : InvocationContext F.
Variable spandrel_model : SpandrelImageToImageModel F.
Variable image_tensor : Tensor4 F.

(** A loop that returns leaves the cells outside every stitch region as they
    were, holds an 8-bit sample in every stitched cell, and would have
    returned the same stitched cells from any other initial contents. *)
Lemma process_tiles_written (h w c : Z) (pairs : list (Tile * Tile)) :
  forall (d0 d : Tensor3 Z) (tr tr' : trace),
    process_tiles context spandrel_model image_tensor pairs d0 tr = (Ok d, tr') ->
    shape3 d0 = (h, w, c) ->
    shape3 d = (h, w, c) /\
    (forall i j ch, stitched h w pairs i j = false -> at3 d i j ch = at3 d0 i j ch) /\
    (forall i j ch, stitched h w pairs i j = true -> 0 <= at3 d i j ch < 256) /\
    (forall e0, shape3 e0 = (h, w, c) ->
       exists e,
         process_tiles context spandrel_model image_tensor pairs e0 tr = (Ok e, tr') /\
         forall i j ch,
           (stitched h w pairs i j = true -> at3 e i j ch = at3 d i j ch) /\
           (stitched h w pairs i j = false -> at3 e i j ch = at3 e0 i j ch)).
Proof.
  induction pairs as [|[t st] pairs IH]; intros d0 d tr tr' E Hd0.
  - inversion E; subst. split; [exact Hd0|]. split; [reflexivity|].
    split; [discriminate|].
    intros e0 _. exists e0. split; [reflexivity|].
    intros i j ch. split; [discriminate | reflexivity].
  - rewrite process_tiles_cons in E.
    destruct (process_tile context spandrel_model image_tensor t st d0 tr)
      as [[d1|ex] tr1] eqn:E1; [|discriminate].
    pose proof (process_tile_ok _ _ _ _ _ _ _ _ _ E1)
      as (Hc & -> & o & ot & Hrun & Hconv & Hm).
    destruct (merge_tile_some _ _ _ _ _ _ _ Hm Hd0) as (Hd1 & Hout & Hin & Hany).
    destruct (IH d1 d _ tr' E Hd1) as (Hd & Hframe & Hbyte & Hind).
    assert (Hst : forall i j,
               stitched h w ((t, st) :: pairs) i j =
               stitch_region h w st i j || stitched h w pairs i j) by reflexivity.
    split; [exact Hd|]. split; [|split].
    + intros i j ch Hs. rewrite Hst in Hs. apply orb_false_iff in Hs.
      destruct Hs as [Hs1 Hs2]. rewrite Hframe by exact Hs2. now apply Hout.
    + intros i j ch Hs. rewrite Hst in Hs.
      destruct (stitched h w pairs i j) eqn:Hs2; [now apply Hbyte|].
      rewrite orb_false_r in Hs. rewrite Hframe by exact Hs2.
      destruct (Hin i j ch Hs) as (a & b & k & ->).
      apply (convert_output_tile_byte o ot Hconv).
    + intros e0 He0. destruct (Hany e0 He0) as (e1 & Hm1 & Hsame).
      destruct (merge_tile_some _ _ _ _ _ _ _ Hm1 He0) as (He1 & Hout1 & _ & _).
      destruct (Hind e1 He1) as (e & Hl & Hcells).
      exists e. split.
      * rewrite process_tiles_cons, process_tile_eq, Hc, Hrun, Hconv, Hm1. exact Hl.
      * intros i j ch. rewrite Hst. destruct (Hcells i j ch) as [Ht Hf].
        destruct (stitched h w pairs i j) eqn:Hs2.
        { rewrite orb_true_r. split; [intros _; now apply Ht | discriminate]. }
        rewrite orb_false_r. split; intros Hs.
        -- rewrite Hf by reflexivity. rewrite Hframe by exact Hs2. now apply Hsame.
        -- rewrite Hf by reflexivity. now apply Hout1.
Qed.

(** A stitched cell of a loop that returns holds what the last tile of the
    traversal whose stitch region contains it put there: the loop over the
    tiles before it returns a tensor, the model is run on that tile, and the
    stitch of its converted output into that tensor gives the final cell. *)
Lemma process_tiles_last_writer (h w c i j : Z) (pairs : list (Tile * Tile)) :
  forall (d0 d : Tensor3 Z) (tr tr' : trace),
    process_tiles context spandrel_model image_tensor pairs d0 tr = (Ok d, tr') ->
    shape3 d0 = (h, w, c) ->
    stitched h w pairs i j = true ->
    exists before tile scaled_tile later d1 tr1 o ot d2,
      pairs = before ++ (tile, scaled_tile) :: later /\
      stitch_region h w scaled_tile i j = true /\
      stitched h w later i j = false /\
      process_tiles context spandrel_model image_tensor before d0 tr = (Ok d1, tr1) /\
      shape3 d1 = (h, w, c) /\
      run spandrel_model (count is_run tr1) (extract_tile image_tensor tile) = Ok o /\
      convert_output_tile o = Some ot /\
      merge_tile d1 scaled_tile ot = Some d2 /\
      forall ch, at3 d i j ch = at3 d2 i j ch.
Proof.
  induction pairs as [|[t st] pairs IH]; intros d0 d tr tr' E Hd0 Hs; [discriminate|].
  rewrite process_tiles_cons in E.
  destruct (process_tile context spandrel_model image_tensor t st d0 tr)
    as [[d1|ex] tr1] eqn:E1; [|discriminate].
  pose proof (process_tile_ok _ _ _ _ _ _ _ _ _ E1)
    as (Hc & Htr & o & ot & Hrun & Hconv & Hm).
  destruct (merge_tile_some _ _ _ _ _ _ _ Hm Hd0) as (Hd1 & _).
  destruct (stitched h w pairs i j) eqn:Hrest.
  - destruct (IH d1 d tr1 tr' E Hd1 eq_refl)
      as (before & t' & st' & later & e1 & tr2 & o' & ot' & e2 &
          Hp & Hr' & Hl' & Hb' & He1 & Hrun' & Hconv' & Hm' & Hval).
    exists ((t, st) :: before), t', st', later, e1, tr2, o', ot', e2.
    split; [now rewrite Hp|]. split; [exact Hr'|]. split; [exact Hl'|].
    split; [now rewrite process_tiles_cons, E1|]. auto.
  - exists [], t, st, pairs, d0, tr, o, ot, d1.
    unfold stitched in Hs. cbn [existsb snd] in Hs.
    fold (stitched h w pairs i j) in Hs. rewrite Hrest, orb_false_r in Hs.
    split; [reflexivity|]. split; [exact Hs|]. split; [exact Hrest|].
    split; [reflexivity|]. split; [exact Hd0|]. split; [exact Hrun|].
    split; [exact Hconv|]. split; [exact Hm|].
    intros ch.
    destruct (process_tiles_written h w c pairs d1 d _ tr' E Hd1) as (_ & Hframe & _).
    now apply Hframe.
Qed.

(** The cell that a stitch of a tile-sized converted tile puts in its stitch
    region is the tile's cell at the offset from the tile's corner. *)
Lemma merge_tile_value (d d' : Tensor3 Z) (scaled_tile : Tile) (ot : Tensor3 Z)
  (h w c i j ch : Z) :
  merge_tile d scaled_tile ot = Some d' ->
  shape3 d = (h, w, c) ->
  tile_within h w scaled_tile ->
  shape3 ot = (bottom (coords scaled_tile) - top (coords scaled_tile),
               right (coords scaled_tile) - left (coords scaled_tile), c) ->
  stitch_region h w scaled_tile i j = true ->
  0 <= ch < c ->
  at3 d' i j ch =
  at3 ot (i - top (coords scaled_tile)) (j - left (coords scaled_tile)) ch.
Proof.
  intros Hm Hd Hw Ho Hs Hch.
  destruct (merge_tile_within d scaled_tile ot h w c Hd Hw Ho) as (d2 & Hm2 & _ & Hat).
  rewrite Hm in Hm2. inversion Hm2; subst d2.
  now rewrite (Hat i j ch Hch), Hs.
Qed.

(** With a model that returns its input, and no cancellation, the loop over
    tiles inside the image returns, and every stitched cell holds the
    quantized sample of the same cell of the input. *)
Lemma process_tiles_identity (h w c : Z) (tiles : list Tile) :
  shape4 image_tensor = (1, c, h, w) ->
  (forall n x, run spandrel_model n x = Ok x) ->
  (forall n, is_canceled_at context n = false) ->
  Forall (fun t => tile_within h w (_scale_tile t 1)) tiles ->
  forall (d0 : Tensor3 Z) (tr : trace),
    shape3 d0 = (h, w, c) ->
    exists d tr',
      process_tiles context spandrel_model image_tensor
        (map (fun t => (t, _scale_tile t 1)) tiles) d0 tr = (Ok d, tr') /\
      shape3 d = (h, w, c) /\
      forall i j ch, 0 <= ch < c ->
        at3 d i j ch =
        if stitched h w (map (fun t => (t, _scale_tile t 1)) tiles) i j
        then quantized image_tensor ch i j else at3 d0 i j ch.
Proof.
  intros Hx Hrun Hcan Hall. induction Hall as [|t tiles Ht _ IH]; intros d0 tr Hd0.
  - exists d0, tr. split; [reflexivity|]. split; [exact Hd0|]. reflexivity.
  - cbn [map]. pose proof Ht as Hw.
    destruct Hw as (H1 & H2 & H3 & H4 & H5 & H6).
    cbn [_scale_tile coords overlap top bottom left right] in H1, H2, H3, H4, H5, H6.
    set (ot := tmap3 to_uint8 (tmap3 mul_255 (tmap3 clamp_0_1
                 (permute_1_2_0
                    (mkTensor3 (c, bottom (coords t) - top (coords t),
                                right (coords t) - left (coords t))
                       (fun ch i j =>
                          to_dtype (at4 image_tensor 0 ch (top (coords t) + i)
                                                          (left (coords t) + j)))))))).
    assert (Hconv : convert_output_tile (extract_tile image_tensor t) = Some ot).
    { unfold convert_output_tile, extract_tile, getitem4_hw, squeeze0.
      rewrite Hx. rewrite !slice_indices_within by lia.
      cbn [tmap4 shape4 at4]. rewrite Z.eqb_refl.
      replace (Z.max 0 (bottom (coords t) - Z.min (top (coords t)) h))
        with (bottom (coords t) - top (coords t)) by lia.
      replace (Z.max 0 (right (coords t) - Z.min (left (coords t)) w))
        with (right (coords t) - left (coords t)) by lia.
      replace (Z.min (top (coords t)) h) with (top (coords t)) by lia.
      replace (Z.min (left (coords t)) w) with (left (coords t)) by lia.
      reflexivity. }
    assert (Hot : shape3 ot =
                  (bottom (coords (_scale_tile t 1)) - top (coords (_scale_tile t 1)),
                   right (coords (_scale_tile t 1)) - left (coords (_scale_tile t 1)), c)).
    { cbn. now rewrite !Z.mul_1_r. }
    destruct (merge_tile_within d0 (_scale_tile t 1) ot h w c Hd0 Ht Hot)
      as (d1 & Hm & Hd1 & Hat).
    destruct (IH d1 (after_tile tr) Hd1) as (d & tr' & Hl & Hd & Hcells).
    exists d, tr'. split; [|split; [exact Hd|]].
    + rewrite process_tiles_cons, process_tile_eq, Hcan, Hrun, Hconv, Hm. exact Hl.
    + intros i j ch Hch. rewrite (Hcells i j ch Hch), (Hat i j ch Hch).
      unfold stitched. cbn [existsb snd].
      fold (stitched h w (map (fun t => (t, _scale_tile t 1)) tiles) i j).
      destruct (stitched h w (map (fun t => (t, _scale_tile t 1)) tiles) i j);
        [now rewrite orb_true_r|].
      rewrite orb_false_r.
      destruct (stitch_region h w (_scale_tile t 1) i j); [|reflexivity].
      cbn. unfold quantized.
      replace (top (coords t) + (i - top (coords t) * 1)) with i by lia.
      replace (left (coords t) + (j - left (coords t) * 1)) with j by lia.
      reflexivity.
Qed.

End WrittenFacts.

(** Tensors of the same shape with the same cells inside it have the same
    contents. *)
Lemma materialize3_ext {A} (a b : Tensor3 A) :
  shape3 a = shape3 b ->
  (forall i j ch, in_shape3 (shape3 a) i j ch -> at3 a i j ch = at3 b i j ch) ->
  materialize3 a = materialize3 b.
Proof.
  intros Hs Hc. unfold materialize3. rewrite <- Hs.
  destruct (shape3 a) as [[h w] c]. cbn [in_shape3] in Hc.
  assert (Hin : forall n i, In i (zrange n) -> 0 <= i < n).
  { intros n i Hi. unfold zrange in Hi. apply in_map_iff in Hi.
    destruct Hi as (k & <- & Hk). apply in_seq in Hk. lia. }
  apply map_ext_in. intros i Hi. apply map_ext_in. intros j Hj.
  apply map_ext_in. intros ch Hch. apply Hc; auto.
Qed.

Lemma stitched_true (h w : Z) (pairs : list (Tile * Tile)) (p : Tile * Tile) (i j : Z) :
  In p pairs -> stitch_region h w (snd p) i j = true -> stitched h w pairs i j = true.
Proof.
  intros Hp Hs. unfold stitched. apply existsb_exists. exists p. auto.
Qed.

Lemma axis_valid_pos (n : Z) (a : list span) : axis_valid n a = true -> 0 < n.
Proof.
  destruct a as [|[lo hi] a]; [discriminate|].
  cbn [axis_valid]. intros Hv. bool_hyps. lia.
Qed.

Lemma allocate_output_some {F} (s : Z) (x : Tensor4 F) (n c h w : Z) :
  shape4 x = (n, c, h, w) -> 0 <= h * s -> 0 <= w * s -> 0 <= c ->
  allocate_output s x = Some (mkTensor3 (h * s, w * s, c) (fun _ _ _ => 0)).
Proof.
  intros Hx Hh Hw Hc. unfold allocate_output, zeros3. rewrite Hx.
  destruct (0 <=? h * s) eqn:E1; [|apply Z.leb_gt in E1; lia].
  destruct (0 <=? w * s) eqn:E2; [|apply Z.leb_gt in E2; lia].
  destruct (0 <=? c) eqn:E3; [|apply Z.leb_gt in E3; lia].
  reflexivity.
Qed.

(** ** Cancellation, failure, and the untiled case *)

(** C5.  When the first [k] tiles have been processed and the cancellation
    flag is found set at the poll before tile [k], the invocation raises
    [CanceledException]: the poll is the last thing it does, the model has
    run exactly [k] times, and no image has been saved or returned. *)
Theorem cancel_before_tile {F : Type} `{TorchFloat F}
  (calc_tiles_min_overlap : Z -> Z -> Z -> Z -> Z -> result (list Tile))
  (context : InvocationContext F) (self : SpandrelImageToImageInvocation)
  (m : SpandrelImageToImageModel F) (x : Tensor4 F) (pairs : list (Tile * Tile))
  (d0 d : Tensor3 Z) (tr1 tr2 : trace) (k : nat) :
  prepare calc_tiles_min_overlap context self [] = (Ok (m, x, pairs, d0), tr1) ->
  (k < List.length pairs)%nat ->
  process_tiles context m x (firstn k pairs) d0 tr1 = (Ok d, tr2) ->
  is_canceled_at context k = true ->
  invoke calc_tiles_min_overlap context self [] =
    (Raise CanceledException, EvPoll true :: tr2) /\
  count is_run (EvPoll true :: tr2) = k /\
  count is_poll (EvPoll true :: tr2) = S k /\
  count is_save (EvPoll true :: tr2) = 0%nat.
Proof.
  intros Hp Hk Hl Hc.
  pose proof (prepare_trace _ _ _ _ _ _ Hp) as (Pp & Pr & Ps & _).
  pose proof (process_tiles_ok_trace _ _ _ _ _ _ _ _ Hl) as (Lp & Lr & Ls & _).
  rewrite length_firstn, Nat.min_l in Lp, Lr by lia.
  rewrite Pp in Lp. rewrite Pr in Lr. rewrite Ps in Ls.
  change (count is_poll []) with 0%nat in Lp.
  change (count is_run []) with 0%nat in Lr.
  change (count is_save []) with 0%nat in Ls. cbn [Nat.add] in Lp, Lr.
  split.
  - rewrite invoke_eq, Hp.
    rewrite <- (firstn_skipn k pairs) at 1. rewrite process_tiles_app, Hl.
    destruct (skipn k pairs) as [|[t st] rest] eqn:Es.
    { exfalso. assert (Hlen : List.length (skipn k pairs) = 0%nat) by now rewrite Es.
      rewrite length_skipn in Hlen. lia. }
    rewrite process_tiles_cons, process_tile_eq, Lp, Hc. reflexivity.
  - unfold count in *. cbn [filter is_poll is_run is_save List.length].
    repeat split; lia.
Qed.

(** C6.  When the model raises on a tile, the invocation raises the same
    failure at once and saves nothing; and whenever an invocation saves an
    image, its loop has returned from the last tile and the image is the
    output tensor of the whole loop. *)
Theorem transform_failure_propagates {F : Type} `{TorchFloat F}
  (calc_tiles_min_overlap : Z -> Z -> Z -> Z -> Z -> result (list Tile)) :
  (forall (context : InvocationContext F) (self : SpandrelImageToImageInvocation)
          (m : SpandrelImageToImageModel F) (x : Tensor4 F)
          (pairs : list (Tile * Tile)) (d0 d : Tensor3 Z) (tr1 tr2 : trace)
          (j : nat) (tile scaled_tile : Tile) (e : exn),
      prepare calc_tiles_min_overlap context self [] = (Ok (m, x, pairs, d0), tr1) ->
      nth_error pairs j = Some (tile, scaled_tile) ->
      process_tiles context m x (firstn j pairs) d0 tr1 = (Ok d, tr2) ->
      is_canceled_at context j = false ->
      run m j (extract_tile x tile) = Raise e ->
      invoke calc_tiles_min_overlap context self [] = (Raise e, after_tile tr2) /\
      count is_run (after_tile tr2) = S j /\
      count is_save (after_tile tr2) = 0%nat) /\
  (forall (context : InvocationContext F) (self : SpandrelImageToImageInvocation)
          (r : result ImageOutput) (tr' : trace) (img : PilImage),
      invoke calc_tiles_min_overlap context self [] = (r, tr') ->
      In (EvSave img) tr' ->
      exists m x pairs d0 tr1 d tr2,
        prepare calc_tiles_min_overlap context self [] = (Ok (m, x, pairs, d0), tr1) /\
        process_tiles context m x pairs d0 tr1 = (Ok d, tr2) /\
        count is_run tr2 = List.length pairs /\
        fromarray (tmap3 (fun v => v mod 256) d) = Some img /\
        tr' = EvSave img :: tr2).
Proof.
  split.
  - intros context self m x pairs d0 d tr1 tr2 j tile scaled_tile e Hp Hn Hl Hc Hr.
    pose proof (prepare_trace _ _ _ _ _ _ Hp) as (Pp & Pr & Ps & _).
    pose proof (process_tiles_ok_trace _ _ _ _ _ _ _ _ Hl) as (Lp & Lr & Ls & _).
    assert (Hj : (j < List.length pairs)%nat) by (apply nth_error_Some; congruence).
    rewrite length_firstn, Nat.min_l in Lp, Lr by lia.
    rewrite Pp in Lp. rewrite Pr in Lr. rewrite Ps in Ls.
    change (count is_poll []) with 0%nat in Lp.
    change (count is_run []) with 0%nat in Lr.
    change (count is_save []) with 0%nat in Ls. cbn [Nat.add] in Lp, Lr.
    split.
    + rewrite invoke_eq, Hp.
      rewrite <- (firstn_skipn j pairs) at 1. rewrite process_tiles_app, Hl.
      destruct (nth_error_split pairs j Hn) as (l1 & l2 & -> & Hlen).
      rewrite skipn_app, <- Hlen, skipn_all, Nat.sub_diag. cbn [skipn app].
      rewrite process_tiles_cons, process_tile_eq, Lp, Hc, Lr, Hr. reflexivity.
    + destruct (count_after_tile tr2) as (_ & Cr & Cs & _). rewrite Cr, Cs. lia.
  - intros context self r tr' img Hi Hin.
    destruct (invoke_saved _ _ _ _ _ _ Hi Hin)
      as (m & x & pairs & d0 & tr1 & d & tr2 & H1 & H2 & H3 & H4 & H5 & _).
    exists m, x, pairs, d0, tr1, d, tr2. auto.
Qed.

(** C7.  With tiling disabled ([tile_size <= 0]) the tile list is the single
    tile with coords (top 0, bottom H, left 0, right W) and all overlaps
    zero, whatever the image; the tile generator is not called, neither
    there nor anywhere in the invocation. *)
Theorem untiled_single_tile {F : Type} `{TorchFloat F}
  (calc_tiles_min_overlap : Z -> Z -> Z -> Z -> Z -> result (list Tile))
  (self : SpandrelImageToImageInvocation) (img : PilImage) (tr : trace) :
  tile_size self <= 0 ->
  compute_tiles calc_tiles_min_overlap self img tr =
    (Ok [ mkTile (mkTBLR 0 (height img) 0 (width img)) (mkTBLR 0 0 0 0) ], tr) /\
  order_tiles [ mkTile (mkTBLR 0 (height img) 0 (width img)) (mkTBLR 0 0 0 0) ] =
    [ mkTile (mkTBLR 0 (height img) 0 (width img)) (mkTBLR 0 0 0 0) ] /\
  forall (context : InvocationContext F) r tr',
    invoke calc_tiles_min_overlap context self [] = (r, tr') ->
    count is_tilegrid tr' = 0%nat.
Proof.
  intros Hs. split; [|split].
  - unfold compute_tiles. destruct (tile_size self >? 0) eqn:E; [|reflexivity].
    apply Z.gtb_lt in E. lia.
  - reflexivity.
  - intros context r tr'. rewrite invoke_eq.
    destruct (prepare calc_tiles_min_overlap context self [])
      as [[[[[m x] pairs] d0]|e] tr1] eqn:Ep;
      pose proof (prepare_trace _ _ _ _ _ _ Ep) as (_ & _ & _ & Hz);
      specialize (Hz Hs); subst tr1.
    2:{ intros E; inversion E; subst. reflexivity. }
    destruct (process_tiles context m x pairs d0 []) as [[d|e] tr2] eqn:El;
      pose proof (process_tiles_trace _ _ _ _ _ _ _ _ El) as (_ & _ & _ & Lg).
    2:{ intros E; inversion E; subst. exact Lg. }
    rewrite finish_eq. destruct (fromarray (tmap3 (fun v => v mod 256) d));
      intros E; inversion E; subst; [|exact Lg].
    unfold count in *. cbn [filter is_tilegrid]. exact Lg.
Qed.

Lemma cancel_before_tile_witness :
  fst (invoke Example.grid (Example.context Example.identity (Example.at_poll 2))
         Example.self []) = Raise CanceledException /\
  count is_run (snd (invoke Example.grid
                       (Example.context Example.identity (Example.at_poll 2))
                       Example.self [])) = 2%nat.
Proof.
  epose proof (cancel_before_tile Example.grid
                 (Example.context Example.identity (Example.at_poll 2))
                 Example.self _ _ _ _ _ _ _ 2%nat eq_refl) as W.
  destruct W as (E & Hr & _).
  - cbn. lia.
  - reflexivity.
  - reflexivity.
  - rewrite E. split; [reflexivity | exact Hr].
Defined.

Lemma transform_failure_propagates_witness :
  invoke Example.grid (Example.context Example.failing Example.never) Example.self [] =
  (Raise (ModelError "out of memory"),
   [EvRun; EvPoll false; EvRun; EvPoll false; EvRun; EvPoll false; EvTileGrid]).
Proof.
  epose proof (proj1 (transform_failure_propagates Example.grid)
                 (Example.context Example.failing Example.never)
                 Example.self _ _ _ _ _ _ _ 2%nat _ _ _ eq_refl) as W.
  destruct W as (E & _).
  - reflexivity.
  - reflexivity.
  - reflexivity.
  - reflexivity.
  - exact E.
Defined.

Lemma untiled_single_tile_witness :
  compute_tiles Example.grid Example.self_untiled Example.rgba [] =
  (Ok [ mkTile (mkTBLR 0 4 0 4) (mkTBLR 0 0 0 0) ], []).
Proof.
  refine (proj1 (untiled_single_tile (F:=Q) Example.grid Example.self_untiled
                   Example.rgba [] _)).
  cbn. lia.
Defined.

(** ** The stitch *)

(** C2.  For a converted tile of the size of its scaled tile, the stitch
    goes through; with [top_trim = overlap.top / 2] and
    [left_trim = overlap.left / 2] (integer division), row [r] and column [k]
    of the tile, for every [r >= top_trim] and [k >= left_trim] up to the last
    row and the last column, land at row [coords.top + r] and column
    [coords.left + k] of the output tensor, so the copy starts at
    [(coords.top + top_trim, coords.left + left_trim)] and nothing is trimmed
    at the bottom or on the right; every other cell of the output tensor
    is left as it was. *)
Theorem stitch_trims_top_left
  (output_tensor : Tensor3 Z) (scaled_tile : Tile) (output_tile : Tensor3 Z)
  (h w c : Z) :
  shape3 output_tensor = (h, w, c) ->
  tile_within h w scaled_tile ->
  shape3 output_tile =
    (bottom (coords scaled_tile) - top (coords scaled_tile),
     right (coords scaled_tile) - left (coords scaled_tile), c) ->
  let top_trim := top (overlap scaled_tile) / 2 in
  let left_trim := left (overlap scaled_tile) / 2 in
  let tile_height := bottom (coords scaled_tile) - top (coords scaled_tile) in
  let tile_width := right (coords scaled_tile) - left (coords scaled_tile) in
  exists output_tensor',
    merge_tile output_tensor scaled_tile output_tile = Some output_tensor' /\
    shape3 output_tensor' = (h, w, c) /\
    (forall r k ch,
        top_trim <= r < tile_height -> left_trim <= k < tile_width -> 0 <= ch < c ->
        at3 output_tensor' (top (coords scaled_tile) + r)
                           (left (coords scaled_tile) + k) ch =
        at3 output_tile r k ch) /\
    (forall i j ch,
        0 <= ch < c ->
        ~ (top (coords scaled_tile) + top_trim <= i < bottom (coords scaled_tile) /\
           left (coords scaled_tile) + left_trim <= j < right (coords scaled_tile)) ->
        at3 output_tensor' i j ch = at3 output_tensor i j ch).
Proof.
  intros Hd Hw Ho top_trim left_trim tile_height tile_width.
  destruct (merge_tile_within output_tensor scaled_tile output_tile h w c Hd Hw Ho)
    as (d' & Hm & Hs & Hat).
  exists d'. split; [exact Hm|]. split; [exact Hs|]. split.
  - intros r k ch Hr Hk Hch. rewrite Hat by exact Hch.
    assert (E : stitch_region h w scaled_tile (top (coords scaled_tile) + r)
                              (left (coords scaled_tile) + k) = true).
    { apply stitch_region_iff; [exact Hw|].
      subst top_trim left_trim tile_height tile_width. lia. }
    rewrite E. f_equal; lia.
  - intros i j ch Hch Hout. rewrite Hat by exact Hch.
    destruct (stitch_region h w scaled_tile i j) eqn:E; [|reflexivity].
    apply stitch_region_iff in E; [|exact Hw]. contradiction.
Qed.

Lemma stitch_trims_top_left_witness :
  exists output_tensor',
    merge_tile (mkTensor3 (4, 4, 1) (fun _ _ _ => 0))
               (mkTile (mkTBLR 1 4 1 4) (mkTBLR 2 0 2 0))
               (mkTensor3 (3, 3, 1) (fun r k _ => 10 * r + k + 1)) = Some output_tensor' /\
    materialize3 output_tensor' =
      [ [[0]; [0]; [0]; [0]];
        [[0]; [0]; [0]; [0]];
        [[0]; [0]; [12]; [13]];
        [[0]; [0]; [22]; [23]] ].
Proof.
  destruct (stitch_trims_top_left
              (mkTensor3 (4, 4, 1) (fun _ _ _ => 0))
              (mkTile (mkTBLR 1 4 1 4) (mkTBLR 2 0 2 0))
              (mkTensor3 (3, 3, 1) (fun r k _ => 10 * r + k + 1))
              4 4 1 eq_refl
              ltac:(unfold tile_within; cbn; lia) eq_refl)
    as (d' & Hm & _).
  exists d'. split; [exact Hm|].
  cbv in Hm. inversion Hm. reflexivity.
Defined.

(** ** The output tensor after the loop *)

(** C8.  For an input tensor of height [h], width [w] and [c] channels and a
    model of scale [S], the output tensor is allocated with shape
    [(h * S, w * S, c)], all zero.  When the loop over a covering tile set
    returns, the output tensor has that shape and every cell of it holds an
    unsigned 8-bit sample, lies in the stitch region of some tile, and has the
    value the loop would have left there from any other initial contents:
    nothing of the zero initialisation remains.  The value is the one written
    by the last tile of the traversal whose stitch region holds the cell: the
    loop over the tiles before it returns a tensor, the model's output for
    that tile is converted and stitched into it, and the cell of the result
    is the final cell; when the converted tile has the size of the scaled
    tile, it is the tile's sample at the offset of the cell from the tile's
    top-left corner. *)
Theorem output_fully_written {F : Type} `{TorchFloat F}
  (context : InvocationContext F) (m : SpandrelImageToImageModel F)
  (x : Tensor4 F) (tiles : list Tile) (n c h w : Z) :
  shape4 x = (n, c, h, w) ->
  0 <= c ->
  1 <= scale m ->
  covering_tiling h w tiles ->
  let S := scale m in
  let pairs := map (fun t => (t, _scale_tile t S)) (order_tiles tiles) in
  exists d0,
    allocate_output S x = Some d0 /\
    shape3 d0 = (h * S, w * S, c) /\
    (forall i j ch, at3 d0 i j ch = 0) /\
    forall tr d tr',
      process_tiles context m x pairs d0 tr = (Ok d, tr') ->
      shape3 d = (h * S, w * S, c) /\
      forall i j ch,
        in_shape3 (h * S, w * S, c) i j ch ->
        0 <= at3 d i j ch < 256 /\
        (exists t, In t tiles /\
                   stitch_region (h * S) (w * S) (_scale_tile t S) i j = true) /\
        (forall e0, shape3 e0 = (h * S, w * S, c) ->
           exists e,
             process_tiles context m x pairs e0 tr = (Ok e, tr') /\
             at3 e i j ch = at3 d i j ch) /\
        (exists before tile later d1 tr1 o ot d2,
           let scaled_tile := _scale_tile tile S in
           pairs = before ++ (tile, scaled_tile) :: later /\
           In tile tiles /\
           stitch_region (h * S) (w * S) scaled_tile i j = true /\
           stitched (h * S) (w * S) later i j = false /\
           process_tiles context m x before d0 tr = (Ok d1, tr1) /\
           run m (count is_run tr1) (extract_tile x tile) = Ok o /\
           convert_output_tile o = Some ot /\
           merge_tile d1 scaled_tile ot = Some d2 /\
           at3 d i j ch = at3 d2 i j ch /\
           (shape3 ot = (bottom (coords scaled_tile) - top (coords scaled_tile),
                         right (coords scaled_tile) - left (coords scaled_tile), c) ->
            at3 d i j ch =
            at3 ot (i - top (coords scaled_tile)) (j - left (coords scaled_tile)) ch)).
Proof.
  intros Hx Hc Hs Hcov S pairs.
  pose proof Hcov as (rows & cols & Hr & Hcl & _).
  pose proof (axis_valid_pos _ _ Hr) as Hh. pose proof (axis_valid_pos _ _ Hcl) as Hw.
  assert (HhS : 0 <= h * S) by (apply Z.mul_nonneg_nonneg; lia).
  assert (HwS : 0 <= w * S) by (apply Z.mul_nonneg_nonneg; lia).
  eexists. split; [apply (allocate_output_some S x n c h w Hx HhS HwS Hc)|].
  split; [reflexivity|]. split; [reflexivity|].
  intros tr d tr' El.
  destruct (process_tiles_written context m x (h * S) (w * S) c pairs _ d tr tr' El eq_refl)
    as (Hd & _ & Hbyte & Hind).
  split; [exact Hd|].
  intros i j ch (Hi & Hj & Hch).
  destruct (covering_tiling_stitched h w S tiles i j Hs Hcov Hi Hj) as (t & Ht & Hst).
  assert (Hin : stitched (h * S) (w * S) pairs i j = true).
  { apply (stitched_true _ _ _ (t, _scale_tile t S)); [|exact Hst].
    subst pairs. apply in_map_iff. exists t. split; [reflexivity|].
    apply (Permutation_in _ (Permutation_sym (proj1 (order_tiles_sorted tiles)))).
    exact Ht. }
  split; [now apply Hbyte|]. split; [now exists t|]. split.
  { intros e0 He0. destruct (Hind e0 He0) as (e & Hl & Hcells).
    exists e. split; [exact Hl|]. now apply (Hcells i j ch). }
  destruct (process_tiles_last_writer context m x (h * S) (w * S) c i j pairs
              _ d tr tr' El eq_refl Hin)
    as (before & tile & st & later & d1 & tr1 & o & ot & d2 &
        Hp & Hreg & Hlater & Hb & Hd1 & Hrun & Hconv & Hm & Hval).
  assert (Hmem : In (tile, st) pairs).
  { rewrite Hp. apply in_or_app. right. now left. }
  unfold pairs in Hmem. apply in_map_iff in Hmem.
  destruct Hmem as (t' & Heq & Ht').
  inversion Heq; subst t' st; clear Heq.
  assert (Htile : In tile tiles).
  { apply (Permutation_in _ (proj1 (order_tiles_sorted tiles))). exact Ht'. }
  exists before, tile, later, d1, tr1, o, ot, d2. cbv zeta.
  repeat (split; [first [assumption | apply Hval]|]).
  intros Hot. rewrite Hval.
  apply (merge_tile_value d1 d2 _ ot (h * S) (w * S) c); auto.
  now apply (covering_tiling_within h w S tiles).
Qed.

(** C1.  Over a tile set satisfying the covering and the pairwise-overlap
    invariants, taken in the sorted order, with a model of scale 1 that
    returns its input, no cancellation, and samples that survive the
    conversion to float and back, the loop returns an output tensor equal to
    the input image, byte for byte. *)
Theorem identity_round_trip {F : Type} `{TorchFloat F}
  (context : InvocationContext F) (m : SpandrelImageToImageModel F)
  (img : PilImage) (tiles : list Tile) (min_overlap : Z) (tr : trace) :
  valid_tiling (height img) (width img) min_overlap tiles ->
  scale m = 1 ->
  (forall n x, run m n x = Ok x) ->
  (forall n, is_canceled_at context n = false) ->
  (forall i j b, in_shape3 (shape3 (np_array img)) i j b -> 0 <= px img i j b < 256) ->
  (forall v, 0 <= v < 256 ->
             to_uint8 (mul_255 (clamp_0_1 (to_dtype (to_dtype (of_uint8 v))))) = v) ->
  let image_tensor := tmap4 to_dtype (pil_to_tensor img) in
  let pairs := map (fun t => (t, _scale_tile t (scale m))) (order_tiles tiles) in
  exists d0 d tr',
    allocate_output (scale m) (pil_to_tensor (F:=F) img) = Some d0 /\
    process_tiles context m image_tensor pairs d0 tr = (Ok d, tr') /\
    shape3 d = shape3 (np_array img) /\
    materialize3 d = materialize3 (np_array img).
Proof.
  intros Hv Hs Hrun Hcan Hpx Hrt image_tensor pairs.
  apply valid_tiling_covering in Hv.
  pose proof Hv as (rows & cols & Hr & Hcl & _).
  pose proof (axis_valid_pos _ _ Hr) as Hh. pose proof (axis_valid_pos _ _ Hcl) as Hw.
  set (h := height img) in *. set (w := width img) in *.
  set (c := bands (mode img)).
  assert (Hc : 0 <= c) by (subst c; destruct (mode img); cbn; lia).
  assert (Hx0 : shape4 (pil_to_tensor (F:=F) img) = (1, c, h, w)) by reflexivity.
  assert (Hx : shape4 image_tensor = (1, c, h, w)) by reflexivity.
  subst pairs. rewrite Hs.
  assert (Hord : covering_tiling h w (order_tiles tiles)).
  { apply (covering_tiling_perm h w tiles); [apply order_tiles_sorted | exact Hv]. }
  assert (Hall : Forall (fun t => tile_within h w (_scale_tile t 1)) (order_tiles tiles)).
  { apply Forall_forall. intros t Ht.
    pose proof (covering_tiling_within h w 1 _ t ltac:(lia) Hord Ht) as Hin.
    now rewrite !Z.mul_1_r in Hin. }
  exists (mkTensor3 (h * 1, w * 1, c) (fun _ _ _ => 0)).
  destruct (process_tiles_identity context m image_tensor h w c (order_tiles tiles)
              Hx Hrun Hcan Hall (mkTensor3 (h * 1, w * 1, c) (fun _ _ _ => 0)) tr
              ltac:(cbn; now rewrite !Z.mul_1_r))
    as (d & tr' & Hl & Hd & Hcells).
  exists d, tr'. split; [apply (allocate_output_some 1 _ 1 c h w Hx0); lia|].
  split; [exact Hl|]. split; [exact Hd|].
  apply materialize3_ext; [exact Hd|].
  rewrite Hd. intros i j ch (Hi & Hj & Hch).
  rewrite (Hcells i j ch Hch).
  destruct (covering_tiling_stitched h w 1 (order_tiles tiles) i j ltac:(lia) Hord
              ltac:(lia) ltac:(lia)) as (t & Ht & Hst).
  rewrite !Z.mul_1_r in Hst.
  rewrite (stitched_true h w _ (t, _scale_tile t 1) i j);
    [|apply in_map_iff; exists t; auto | exact Hst].
  unfold quantized. cbn. apply Hrt, Hpx. cbn. auto.
Qed.

(** Exact rationals survive the conversion to float and back. *)
Lemma exactQ_round_trip (v : Z) :
  0 <= v < 256 ->
  to_uint8 (mul_255 (clamp_0_1 (to_dtype (to_dtype (of_uint8 (F:=Q) v))))) = v.
Proof.
  intros Hv.
  assert (Hall : forallb
                   (fun v => to_uint8 (mul_255 (clamp_0_1
                               (to_dtype (to_dtype (of_uint8 (F:=Q) v))))) =? v)
                   (zrange 256) = true) by (vm_compute; reflexivity).
  rewrite forallb_forall in Hall. apply Z.eqb_eq, Hall.
  unfold zrange. apply in_map_iff. exists (Z.to_nat v).
  split; [lia|]. apply in_seq. lia.
Qed.

Lemma example_valid_tiling : valid_tiling 4 4 2 Example.tiles.
Proof. exists Example.rows, Example.rows. repeat split; reflexivity. Qed.

Lemma example_pixel_byte (i j b : Z) :
  in_shape3 (shape3 (np_array Example.rgb)) i j b -> 0 <= Example.pixel i j b < 256.
Proof. intros _. unfold Example.pixel. apply Z.mod_pos_bound. lia. Qed.

Lemma output_fully_written_witness :
  exists d tr',
    process_tiles (Example.context Example.doubling Example.never) Example.doubling
      (tmap4 to_dtype (pil_to_tensor Example.rgb))
      (map (fun t => (t, _scale_tile t 2)) (order_tiles Example.tiles))
      (mkTensor3 (8, 8, 3) (fun _ _ _ => 0)) [] = (Ok d, tr') /\
    shape3 d = (8, 8, 3) /\
    forall i j ch, in_shape3 (8, 8, 3) i j ch -> 0 <= at3 d i j ch < 256.
Proof.
  destruct (output_fully_written (Example.context Example.doubling Example.never)
              Example.doubling (tmap4 to_dtype (pil_to_tensor Example.rgb))
              Example.tiles 1 3 4 4 eq_refl ltac:(lia) ltac:(cbn; lia)
              (valid_tiling_covering _ _ _ _ example_valid_tiling))
    as (d0 & Ha & _ & _ & Hl).
  cbv in Ha. inversion Ha; subst d0; clear Ha.
  eexists. eexists. split; [reflexivity|].
  match goal with
  | |- shape3 ?d = _ /\ _ =>
      destruct (Hl [] d _ eq_refl) as (Hs & Hcells)
  end.
  split; [exact Hs|].
  intros i j ch Hin. exact (proj1 (Hcells i j ch Hin)).
Defined.

Lemma identity_round_trip_witness :
  exists d0 d tr',
    allocate_output 1 (pil_to_tensor (F:=Q) Example.rgb) = Some d0 /\
    process_tiles (Example.context Example.identity Example.never) Example.identity
      (tmap4 to_dtype (pil_to_tensor Example.rgb))
      (map (fun t => (t, _scale_tile t 1)) (order_tiles Example.tiles)) d0 [] =
    (Ok d, tr') /\
    materialize3 d = materialize3 (np_array Example.rgb).
Proof.
  destruct (identity_round_trip (Example.context Example.identity Example.never)
              Example.identity Example.rgb Example.tiles 2 []
              example_valid_tiling eq_refl (fun _ _ => eq_refl) (fun _ => eq_refl)
              example_pixel_byte exactQ_round_trip)
    as (d0 & d & tr' & Ha & Hl & _ & Hm).
  exists d0, d, tr'. split; [exact Ha|]. split; [exact Hl | exact Hm].
Defined.

(** What the conversion stores for exact rational samples: 1 gives 255, a
    value just below 1 gives 254, values outside [0, 1] are clamped. *)
Example exactQ_quantize_examples :
  to_uint8 (mul_255 (clamp_0_1 1%Q)) = 255 /\
  to_uint8 (mul_255 (clamp_0_1 (25499 # 25500)%Q)) = 254 /\
  to_uint8 (mul_255 (clamp_0_1 (-1 # 2)%Q)) = 0 /\
  to_uint8 (mul_255 (clamp_0_1 (3 # 2)%Q)) = 255.
Proof. repeat split; reflexivity. Qed.

(** ** The channels of the image *)

Section ChannelFacts.
Context {F : Type} `{TorchFloat F}.
Variable calc_tiles_min_overlap : Z -> Z -> Z -> Z -> Z -> result (list Tile).
Variable context : InvocationContext F.
Variable self : SpandrelImageToImageInvocation.

(** The input tensor and the output tensor have as many channels as the
    image handed over by the image service has bands. *)
Lemma prepare_channels m x pairs d0 (tr tr1 : trace) :
  let img := images_get_pil context (image self) ModeRGB in
  prepare calc_tiles_min_overlap context self tr = (Ok (m, x, pairs, d0), tr1) ->
  shape4 x = (1, bands (mode img), height img, width img) /\
  shape3 d0 = (height img * scale m, width img * scale m, bands (mode img)).
Proof.
  intros img Hp.
  destruct (prepare_ok _ _ _ _ _ _ _ _ _ Hp) as (tiles & _ & _ & Ha & -> & _).
  fold img in Ha |- *. split; [reflexivity|].
  unfold allocate_output, pil_to_tensor, np_array, zeros3 in Ha.
  cbn [shape3 shape4] in Ha.
  destruct ((0 <=? height img * scale m) && (0 <=? width img * scale m)
            && (0 <=? bands (mode img))); [|discriminate].
  now inversion Ha.
Qed.

(** A saved image has the mode of the image handed over by the image
    service. *)
Lemma invoke_saved_mode (r : result ImageOutput) (tr' : trace) (saved : PilImage) :
  invoke calc_tiles_min_overlap context self [] = (r, tr') ->
  In (EvSave saved) tr' ->
  mode saved = mode (images_get_pil context (image self) ModeRGB).
Proof.
  intros Hi Hin.
  destruct (invoke_saved _ _ _ _ _ _ Hi Hin)
    as (m & x & pairs & d0 & tr1 & d & tr2 & Hp & Hl & _ & Hf & _).
  destruct (prepare_channels _ _ _ _ _ _ Hp) as (_ & Hd0).
  pose proof (process_tiles_ok_trace _ _ _ _ _ _ _ _ Hl) as (_ & _ & _ & _ & Hd).
  rewrite Hd0 in Hd. unfold fromarray in Hf. cbn [tmap3 shape3] in Hf.
  rewrite Hd in Hf.
  destruct (mode (images_get_pil context (image self) ModeRGB));
    cbn in Hf; inversion Hf; reflexivity.
Qed.

End ChannelFacts.




(** ** Quantization of the converted tile *)

Lemma Qclamp_0_1_range (v : Q) :
  0 <= Qnum (Qclamp_0_1 v) <= Zpos (Qden (Qclamp_0_1 v)).
Proof.
  unfold Qclamp_0_1.
  destruct (Qle_bool v 0) eqn:E0; [cbn; lia|].
  destruct (Qle_bool 1 v) eqn:E1; [cbn; lia|].
  assert (H0 : ~ (v <= 0)%Q) by (rewrite <- Qle_bool_iff, E0; discriminate).
  assert (H1 : ~ (1 <= v)%Q) by (rewrite <- Qle_bool_iff, E1; discriminate).
  unfold Qle in H0, H1. cbn in H0, H1. lia.
Qed.

(** With exact samples, the stored byte is the floor of the clamped sample
    times 255. *)
Lemma exactQ_quantize_floor (v : Q) :
  to_uint8 (mul_255 (clamp_0_1 v)) = floor_quantize v /\
  0 <= floor_quantize v <= 255.
Proof.
  pose proof (Qclamp_0_1_range v) as Hr.
  unfold to_uint8, floor_quantize. cbn [mul_255 clamp_0_1 trunc ExactQ].
  destruct (Qclamp_0_1 v) as [n d]. cbn [Qnum Qden] in Hr.
  unfold Qmult, inject_Z, Qfloor. cbn [Qnum Qden].
  rewrite Pos.mul_1_r.
  assert (Hq : n * 255 ÷ Zpos d = n * 255 / Zpos d) by (apply Z.quot_div_nonneg; lia).
  assert (Hb : 0 <= n * 255 / Zpos d <= 255).
  { split; [apply Z.div_pos; lia|].
    apply Z.div_le_upper_bound; lia. }
  rewrite Hq. split; [apply Z.mod_small; lia | exact Hb].
Qed.

Lemma Qfloor_unique (x : Q) (k : Z) :
  (inject_Z k <= x)%Q -> (x < inject_Z (k + 1))%Q -> Qfloor x = k.
Proof.
  intros Hl Hu.
  assert (H1 : k <= Qfloor x).
  { rewrite <- (Qfloor_Z k). now apply Qfloor_resp_le. }
  assert (H2 : Qfloor x < k + 1).
  { rewrite Zlt_Qlt. eapply Qle_lt_trans; [apply Qfloor_le | exact Hu]. }
  lia.
Qed.




(** * Further properties of the invocation *)

(** ** Scaling and ordering *)

(** X1.  Scaling by 1 returns the tile itself, and scaling by [a] and then by
    [b] is scaling by [a * b]. *)
Theorem scale_tile_compose (tile : Tile) (a b : Z) :
  _scale_tile tile 1 = tile /\
  _scale_tile (_scale_tile tile a) b = _scale_tile tile (a * b).
Proof.
  split.
  - destruct tile as [[t b' l r] [ot ob ol or]]. unfold _scale_tile.
    cbn [coords overlap top bottom left right]. now rewrite !Z.mul_1_r.
  - unfold _scale_tile. cbn [coords overlap top bottom left right].
    now rewrite <- !Z.mul_assoc.
Qed.

Lemma StronglySorted_map {A B} (R : A -> A -> Prop) (R' : B -> B -> Prop)
  (f : A -> B) (l : list A) :
  (forall a b, R a b -> R' (f a) (f b)) ->
  StronglySorted R l -> StronglySorted R' (map f l).
Proof.
  intros Hf. induction 1 as [|a l Hs IH Ha]; cbn [map]; constructor.
  - exact IH.
  - apply Forall_map. eapply Forall_impl; [|exact Ha]. intros b. apply Hf.
Qed.

Lemma scale_tile_row_major (s : Z) (a b : Tile) :
  0 <= s -> row_major_le a b -> row_major_le (_scale_tile a s) (_scale_tile b s).
Proof.
  unfold row_major_le, key_top, key_left, _scale_tile.
  cbn [coords top left]. intros Hs Hab.
  destruct (Z.eq_dec s 0) as [->|Hne]; [right; lia|].
  destruct Hab as [Hlt|[Heq Hle]].
  - left. apply Z.mul_lt_mono_pos_r; lia.
  - right. rewrite Heq. split; [reflexivity|].
    apply Z.mul_le_mono_nonneg_r; lia.
Qed.

(** X2.  The scaled tiles that the loop pairs with the ordered tiles are
    themselves in row-major order, for every scale that is not negative. *)
Theorem scaled_tiles_row_major (tiles : list Tile) (s : Z) :
  0 <= s ->
  StronglySorted row_major_le (map (fun tile => _scale_tile tile s) (order_tiles tiles)).
Proof.
  intros Hs. apply (StronglySorted_map row_major_le).
  - intros a b. now apply scale_tile_row_major.
  - apply order_tiles_sorted.
Qed.

Lemma scaled_tiles_row_major_witness :
  StronglySorted row_major_le
    (map (fun tile => _scale_tile tile 2) (order_tiles Example.tiles)).
Proof. apply (scaled_tiles_row_major Example.tiles 2). lia. Defined.

(** Two lists with the same elements, both sorted for an order that is
    antisymmetric on them, are equal. *)
Lemma sorted_perm_unique {A} (R : A -> A -> Prop) (l1 : list A) :
  forall l2,
    (forall a b, In a l1 -> In b l1 -> R a b -> R b a -> a = b) ->
    Permutation l1 l2 ->
    StronglySorted R l1 -> StronglySorted R l2 -> l1 = l2.
Proof.
  induction l1 as [|x l1 IH]; intros l2 Hanti Hp S1 S2.
  - now apply Permutation_nil in Hp.
  - destruct l2 as [|y l2];
      [apply Permutation_sym, Permutation_nil in Hp; discriminate|].
    inversion S1 as [|? ? S1' F1]; subst. inversion S2 as [|? ? S2' F2]; subst.
    assert (Hxy : x = y).
    { assert (Hx : In x (y :: l2)) by (apply (Permutation_in _ Hp); now left).
      assert (Hy : In y (x :: l1))
        by (apply (Permutation_in _ (Permutation_sym Hp)); now left).
      destruct Hx as [Hx|Hx]; [now symmetry|].
      destruct Hy as [Hy|Hy]; [exact Hy|].
      rewrite Forall_forall in F1, F2.
      apply Hanti; [now left | now right | now apply F1 | now apply F2]. }
    subst y. f_equal. apply IH; auto.
    + intros a b Ha Hb. apply Hanti; now right.
    + now apply Permutation_cons_inv in Hp.
Qed.

(** X3.  The traversal order does not depend on the order in which the tiles
    are handed over, as long as no two tiles share their top-left corner. *)
Theorem order_tiles_perm_invariant (tiles tiles' : list Tile) :
  distinct_corners tiles ->
  Permutation tiles tiles' ->
  order_tiles tiles = order_tiles tiles'.
Proof.
  intros Hd Hp.
  destruct (order_tiles_sorted tiles) as [P1 S1].
  destruct (order_tiles_sorted tiles') as [P2 S2].
  apply (sorted_perm_unique row_major_le); auto.
  - intros a b Ha Hb Hab Hba.
    apply (Permutation_in _ P1) in Ha. apply (Permutation_in _ P1) in Hb.
    apply Hd; auto; unfold row_major_le in *; lia.
  - now rewrite P1, P2.
Qed.

Lemma order_tiles_perm_invariant_witness :
  order_tiles Example.tiles = order_tiles (rev Example.tiles).
Proof.
  apply order_tiles_perm_invariant.
  - intros a b Ha Hb.
    cbv in Ha, Hb.
    repeat (destruct Ha as [<-|Ha]; [|]); try contradiction;
      repeat (destruct Hb as [<-|Hb]; [|]); try contradiction;
      cbv; intros; try reflexivity; try discriminate.
  - apply Permutation_rev.
Defined.

(** X14.  Scaling by a scale that is not negative keeps a tile inside the
    image scaled alike: a tile with ordered, non-negative coordinates inside
    an image of [h] rows and [w] columns, and non-negative overlaps, becomes
    one inside [h * s] rows and [w * s] columns, and its height and width are
    multiplied by [s]. *)
Theorem scale_tile_within (h w s : Z) (tile : Tile) :
  0 <= s ->
  tile_within h w tile ->
  tile_within (h * s) (w * s) (_scale_tile tile s) /\
  bottom (coords (_scale_tile tile s)) - top (coords (_scale_tile tile s)) =
    (bottom (coords tile) - top (coords tile)) * s /\
  right (coords (_scale_tile tile s)) - left (coords (_scale_tile tile s)) =
    (right (coords tile) - left (coords tile)) * s.
Proof.
  intros Hs (Ht & Hb & Hl & Hr & Hot & Hol).
  unfold tile_within, _scale_tile. cbn [coords overlap top bottom left right].
  repeat split; try (apply Z.mul_nonneg_nonneg; lia);
    try (apply Z.mul_le_mono_nonneg_r; lia);
    now rewrite Z.mul_sub_distr_r.
Qed.

Lemma scale_tile_within_witness :
  tile_within 8 8 (_scale_tile (mkTile (mkTBLR 1 4 1 4) (mkTBLR 2 0 2 0)) 2).
Proof.
  apply (scale_tile_within 4 4 2 (mkTile (mkTBLR 1 4 1 4) (mkTBLR 2 0 2 0)));
    [lia | unfold tile_within; cbn; lia].
Defined.

(** ** Failures before and inside the loop *)

Section ErrorFacts.
Context {F : Type} `{TorchFloat F}.
Variable calc_tiles_min_overlap : Z -> Z -> Z -> Z -> Z -> result (list Tile).
Variable context : InvocationContext F.
Variable self : SpandrelImageToImageInvocation.

(** What [prepare] returns once the tiles are there, the model is of the
    right kind and the output tensor can be allocated. *)
Lemma prepare_run (tiles : list Tile) (m : SpandrelImageToImageModel F)
  (d0 : Tensor3 Z) (tr tr1 : trace) :
  compute_tiles calc_tiles_min_overlap self
    (images_get_pil context (image self) ModeRGB) tr = (Ok tiles, tr1) ->
  models_load context (image_to_image_model self) = IsSpandrelImageToImageModel m ->
  allocate_output (scale m)
    (pil_to_tensor (F:=F) (images_get_pil context (image self) ModeRGB)) = Some d0 ->
  prepare calc_tiles_min_overlap context self tr =
  (Ok (m, tmap4 to_dtype (pil_to_tensor (images_get_pil context (image self) ModeRGB)),
       map (fun t => (t, _scale_tile t (scale m))) (order_tiles tiles), d0), tr1).
Proof.
  intros Ht Hm Ha. unfold prepare, bind. rewrite Ht, Hm, Ha.
  cbn [or_raise ret]. rewrite zip_strict_map. reflexivity.
Qed.

End ErrorFacts.

(** X4.  When the loader hands back a model that is not a Spandrel
    image-to-image model, the invocation raises [AssertionError] once the
    tiles are computed: the cancellation flag is not polled, no model is run
    and nothing is saved. *)
Theorem other_model_asserts {F : Type} `{TorchFloat F}
  (calc_tiles_min_overlap : Z -> Z -> Z -> Z -> Z -> result (list Tile))
  (context : InvocationContext F) (self : SpandrelImageToImageInvocation)
  (tiles : list Tile) (tr1 : trace) :
  compute_tiles calc_tiles_min_overlap self
    (images_get_pil context (image self) ModeRGB) [] = (Ok tiles, tr1) ->
  models_load context (image_to_image_model self) = IsOtherModel ->
  invoke calc_tiles_min_overlap context self [] = (Raise AssertionError, tr1) /\
  count is_poll tr1 = 0%nat /\ count is_run tr1 = 0%nat /\ count is_save tr1 = 0%nat.
Proof.
  intros Ht Hm. split.
  - rewrite invoke_eq. unfold prepare, bind. now rewrite Ht, Hm.
  - destruct (compute_tiles_trace _ _ _ _ _ _ Ht) as (Hp & Hr & Hs & _).
    rewrite Hp, Hr, Hs. auto.
Qed.

Lemma other_model_asserts_witness :
  invoke Example.grid ExampleRGB.other_context Example.self [] =
  (Raise AssertionError, [EvTileGrid]).
Proof.
  exact (proj1 (other_model_asserts Example.grid ExampleRGB.other_context
                  Example.self Example.tiles [EvTileGrid] eq_refl eq_refl)).
Defined.

(** X5.  With tiling enabled the tile generator is called on the height and
    width of the image, with square tiles of edge [tile_size] and a minimum
    overlap of 20; when that call fails, the invocation raises the same
    failure and does nothing else, whatever the model loader would return. *)
Theorem tile_generator_failure {F : Type} `{TorchFloat F}
  (calc_tiles_min_overlap : Z -> Z -> Z -> Z -> Z -> result (list Tile))
  (context : InvocationContext F) (self : SpandrelImageToImageInvocation) (e : exn) :
  0 < tile_size self ->
  calc_tiles_min_overlap
    (height (images_get_pil context (image self) ModeRGB))
    (width (images_get_pil context (image self) ModeRGB))
    (tile_size self) (tile_size self) 20 = Raise e ->
  invoke calc_tiles_min_overlap context self [] = (Raise e, [EvTileGrid]).
Proof.
  intros Hs He. rewrite invoke_eq. unfold prepare, bind, compute_tiles, tile_grid.
  destruct (tile_size self >? 0) eqn:E;
    [|rewrite Z.gtb_ltb in E; apply Z.ltb_ge in E; lia].
  now rewrite He.
Qed.

Lemma tile_generator_failure_witness :
  invoke ExampleRGB.failing_grid (Example.context Example.identity Example.never)
    Example.self [] = (Raise AssertionError, [EvTileGrid]).
Proof.
  apply tile_generator_failure; [cbn; lia | reflexivity].
Defined.

Lemma convert_output_tile_some {F : Type} `{TorchFloat F} (o : Tensor4 F) (c h w : Z) :
  shape4 o = (1, c, h, w) ->
  exists ot,
    convert_output_tile o = Some ot /\
    shape3 ot = (h, w, c) /\
    forall i j ch,
      at3 ot i j ch = to_uint8 (mul_255 (clamp_0_1 (at4 o 0 ch i j))).
Proof.
  intros Ho. unfold convert_output_tile, squeeze0. rewrite Ho. cbn.
  eexists. split; [reflexivity|]. split; reflexivity.
Qed.

Lemma convert_output_tile_none {F : Type} `{TorchFloat F} (o : Tensor4 F) (n c h w : Z) :
  shape4 o = (n, c, h, w) -> n <> 1 -> convert_output_tile o = None.
Proof.
  intros Ho Hn. unfold convert_output_tile, squeeze0. rewrite Ho.
  destruct (n =? 1) eqn:E; [apply Z.eqb_eq in E; contradiction | reflexivity].
Qed.

Lemma not_broadcastable (src dst : Z) :
  src <> dst -> src <> 1 -> broadcastable src dst = false.
Proof.
  intros H1 H2. unfold broadcastable.
  destruct (src =? dst) eqn:E1; [apply Z.eqb_eq in E1; contradiction|].
  destruct (src =? 1) eqn:E2; [apply Z.eqb_eq in E2; contradiction | reflexivity].
Qed.

(** A converted tile that does not fit is not stitched. *)
Lemma merge_tile_misfit (d : Tensor3 Z) (scaled_tile : Tile) (ot : Tensor3 Z)
  (h w c oh ow oc : Z) :
  shape3 d = (h, w, c) ->
  tile_within h w scaled_tile ->
  shape3 ot = (oh, ow, oc) ->
  tile_misfit c scaled_tile oh ow oc ->
  merge_tile d scaled_tile ot = None.
Proof.
  intros Hd Hw Ho Hmis. pose proof Hw as (Ht & Hb & Hl & Hr & Hot & Hol).
  pose proof (half_le _ Hot) as Htt. pose proof (half_le _ Hol) as Hlt.
  destruct d as [sd fd], ot as [so fo]. cbn in Hd, Ho. subst sd so.
  unfold merge_tile, setitem3, getitem3. cbn [shape3 at3].
  rewrite !slice_indices_within by lia.
  rewrite !slice_indices_from by lia.
  cbn [shape3 at3]. unfold tile_misfit in Hmis. cbv zeta in Hmis.
  match goal with
  | |- (if ?a && ?b && ?cc then _ else _) = None =>
      assert (E : a && b && cc = false); [|now rewrite E]
  end.
  destruct Hmis as [(H1 & H2 & H3)|[(H1 & H2 & H3)|(H1 & H2)]].
  - rewrite not_broadcastable; [reflexivity | lia | lia].
  - rewrite (not_broadcastable (Z.max 0 (ow - _))); [|lia|lia].
    now rewrite andb_false_r.
  - rewrite (not_broadcastable oc c H1 H2). apply andb_false_r.
Qed.

(** X6.  An iteration whose model call returns a tensor that cannot be
    stitched raises [RuntimeError] after the call: a batch size other than 1,
    or a converted tile that does not fit the stitch region of the scaled
    tile. *)
Theorem process_tile_bad_output {F : Type} `{TorchFloat F}
  (context : InvocationContext F) (m : SpandrelImageToImageModel F)
  (x : Tensor4 F) (tile scaled_tile : Tile) (d : Tensor3 Z) (tr : trace)
  (o : Tensor4 F) (h w c n oc oh ow : Z) :
  is_canceled_at context (count is_poll tr) = false ->
  run m (count is_run tr) (extract_tile x tile) = Ok o ->
  shape3 d = (h, w, c) ->
  tile_within h w scaled_tile ->
  shape4 o = (n, oc, oh, ow) ->
  n <> 1 \/ tile_misfit c scaled_tile oh ow oc ->
  process_tile context m x tile scaled_tile d tr = (Raise RuntimeError, after_tile tr).
Proof.
  intros Hc Hr Hd Hw Ho Hbad. rewrite process_tile_eq, Hc, Hr.
  destruct (Z.eq_dec n 1) as [->|Hn].
  - destruct Hbad as [Hn|Hmis]; [contradiction|].
    destruct (convert_output_tile_some o oc oh ow Ho) as (ot & -> & Hs & _).
    now rewrite (merge_tile_misfit d scaled_tile ot h w c oh ow oc Hd Hw Hs Hmis).
  - now rewrite (convert_output_tile_none o n oc oh ow Ho Hn).
Qed.

Lemma process_tile_bad_output_witness :
  fst (invoke Example.grid (ExampleRGB.context ExampleRGB.stretching Example.never)
         Example.self []) = Raise RuntimeError.
Proof.
  pose proof (process_tile_bad_output
                (ExampleRGB.context ExampleRGB.stretching Example.never)
                ExampleRGB.stretching
                (tmap4 to_dtype (pil_to_tensor Example.rgb))
                (mkTile (mkTBLR 0 3 0 3) (mkTBLR 0 2 0 2))
                (mkTile (mkTBLR 0 3 0 3) (mkTBLR 0 2 0 2))
                (mkTensor3 (4, 4, 3) (fun _ _ _ => 0)) [EvTileGrid]
                _ 4 4 3 1 3 8 3 eq_refl eq_refl eq_refl
                ltac:(unfold tile_within; cbn; lia) eq_refl
                ltac:(right; left; cbn; lia)) as W.
  rewrite invoke_eq.
  change (prepare Example.grid (ExampleRGB.context ExampleRGB.stretching Example.never)
            Example.self [])
    with (Ok (ExampleRGB.stretching, tmap4 to_dtype (pil_to_tensor (F:=Q) Example.rgb),
              map (fun t => (t, _scale_tile t 1)) (order_tiles Example.tiles),
              mkTensor3 (4, 4, 3) (fun _ _ _ => 0)), [EvTileGrid]).
  cbv beta iota.
  change (map (fun t => (t, _scale_tile t 1)) (order_tiles Example.tiles))
    with ((mkTile (mkTBLR 0 3 0 3) (mkTBLR 0 2 0 2),
           mkTile (mkTBLR 0 3 0 3) (mkTBLR 0 2 0 2))
            :: map (fun t => (t, _scale_tile t 1)) (tl (order_tiles Example.tiles))).
  rewrite process_tiles_cons, W. reflexivity.
Defined.

(** ** What the loop and the invocation leave in the trace *)

Lemma after_tiles_succ (k : nat) (tr : trace) :
  after_tiles k (after_tile tr) = after_tiles (S k) tr.
Proof. unfold after_tiles. symmetry. apply Nat.iter_succ_r. Qed.

Lemma count_after_tiles (k : nat) (tr : trace) :
  count is_poll (after_tiles k tr) = (count is_poll tr + k)%nat /\
  count is_run (after_tiles k tr) = (count is_run tr + k)%nat.
Proof.
  induction k as [|k [IHp IHr]]; [change (after_tiles 0 tr) with tr; lia|].
  change (after_tiles (S k) tr) with (after_tile (after_tiles k tr)).
  destruct (count_after_tile (after_tiles k tr)) as (Cp & Cr & _).
  rewrite Cp, Cr, IHp, IHr. lia.
Qed.

(** The loop never runs the model more often than it polls. *)
Lemma process_tiles_runs_le_polls {F : Type} `{TorchFloat F}
  (context : InvocationContext F) (m : SpandrelImageToImageModel F)
  (x : Tensor4 F) (pairs : list (Tile * Tile)) :
  forall (d : Tensor3 Z) (tr : trace) r tr',
    process_tiles context m x pairs d tr = (r, tr') ->
    (count is_run tr' + count is_poll tr <= count is_poll tr' + count is_run tr)%nat.
Proof.
  induction pairs as [|[t st] pairs IH]; intros d tr r tr' E.
  - inversion E; subst. lia.
  - rewrite process_tiles_cons, process_tile_eq in E.
    destruct (is_canceled_at context (count is_poll tr)).
    { inversion E; subst. unfold count.
      cbn [filter is_poll is_run List.length]. lia. }
    destruct (count_after_tile tr) as (Cp & Cr & _).
    destruct (run m (count is_run tr) (extract_tile x t)) as [o|e];
      [|inversion E; subst; lia].
    destruct (convert_output_tile o) as [ot|]; [|inversion E; subst; lia].
    destruct (merge_tile d st ot) as [d1|]; [|inversion E; subst; lia].
    apply IH in E. lia.
Qed.

(** X7.  The loop polls the cancellation flag exactly once per tile, before
    that tile's model call, and does nothing else to its surroundings: its
    trace is a run of (poll found clear, model call) pairs, one per processed
    tile, followed by a poll found set exactly when the loop was cancelled.
    It returns only after all the tiles; a failure of the model or of the
    stitch ends it right after that tile's model call. *)
Theorem process_tiles_trace_shape {F : Type} `{TorchFloat F}
  (context : InvocationContext F) (m : SpandrelImageToImageModel F)
  (x : Tensor4 F) (pairs : list (Tile * Tile)) :
  forall (d : Tensor3 Z) (tr : trace) r tr',
    process_tiles context m x pairs d tr = (r, tr') ->
    exists k,
      (k <= List.length pairs)%nat /\
      ((exists d', r = Ok d' /\ k = List.length pairs /\ tr' = after_tiles k tr) \/
       (r = Raise CanceledException /\ (k < List.length pairs)%nat /\
        tr' = EvPoll true :: after_tiles k tr /\
        is_canceled_at context (count is_poll tr + k) = true) \/
       (exists e, r = Raise e /\ (1 <= k)%nat /\ tr' = after_tiles k tr /\
                  is_canceled_at context (count is_poll tr + (k - 1)) = false)).
Proof.
  induction pairs as [|[t st] pairs IH]; intros d tr r tr' E.
  - inversion E; subst. exists 0%nat. split; [lia|]. left. exists d. auto.
  - rewrite process_tiles_cons, process_tile_eq in E. cbn [List.length].
    destruct (is_canceled_at context (count is_poll tr)) eqn:Ec.
    { inversion E; subst. exists 0%nat. split; [lia|]. right; left.
      rewrite Nat.add_0_r. repeat split; auto; lia. }
    assert (Hfail : forall e, (Raise e, after_tile tr) = (r, tr') ->
              exists k,
                (k <= S (List.length pairs))%nat /\
                ((exists d', r = Ok d' /\ k = S (List.length pairs) /\
                             tr' = after_tiles k tr) \/
                 (r = Raise CanceledException /\ (k < S (List.length pairs))%nat /\
                  tr' = EvPoll true :: after_tiles k tr /\
                  is_canceled_at context (count is_poll tr + k) = true) \/
                 (exists e, r = Raise e /\ (1 <= k)%nat /\ tr' = after_tiles k tr /\
                            is_canceled_at context (count is_poll tr + (k - 1)) = false))).
    { intros e E'. inversion E'; subst. exists 1%nat. split; [lia|]. right; right.
      exists e. cbn [Nat.sub]. rewrite Nat.add_0_r. repeat split; auto. }
    destruct (run m (count is_run tr) (extract_tile x t)) as [o|e]; [|now apply (Hfail e)].
    destruct (convert_output_tile o) as [ot|]; [|now apply (Hfail RuntimeError)].
    destruct (merge_tile d st ot) as [d1|]; [|now apply (Hfail RuntimeError)].
    destruct (IH d1 (after_tile tr) r tr' E) as (k & Hk & Hcases).
    destruct (count_after_tile tr) as (Cp & _). rewrite Cp in Hcases.
    rewrite after_tiles_succ in Hcases.
    exists (S k). split; [lia|].
    destruct Hcases as [(d' & -> & -> & ->)|[(-> & Hlt & -> & Hc)|(e & -> & H1 & -> & Hc)]].
    + left. exists d'. auto.
    + right; left. replace (count is_poll tr + S k)%nat with (S (count is_poll tr) + k)%nat by lia.
      repeat split; auto; lia.
    + right; right. exists e.
      replace (count is_poll tr + (S k - 1))%nat
        with (S (count is_poll tr) + (k - 1))%nat by lia.
      repeat split; auto; lia.
Qed.


Lemma process_tiles_trace_shape_witness :
  exists k,
    (k <= 4)%nat /\
    snd (process_tiles (Example.context Example.failing Example.never) Example.failing
           (tmap4 to_dtype (pil_to_tensor Example.rgb))
           (map (fun t => (t, _scale_tile t 1)) (order_tiles Example.tiles))
           (mkTensor3 (4, 4, 3) (fun _ _ _ => 0)) []) = after_tiles k [].
Proof.
  destruct (process_tiles_trace_shape
              (Example.context Example.failing Example.never) Example.failing
              (tmap4 to_dtype (pil_to_tensor Example.rgb))
              (map (fun t => (t, _scale_tile t 1)) (order_tiles Example.tiles))
              (mkTensor3 (4, 4, 3) (fun _ _ _ => 0)) [] _ _ eq_refl)
    as (k & Hk & [(d' & Hr & _ & Ht)|[(Hr & _)|(e & _ & _ & Ht & _)]]).
  - discriminate Hr.
  - discriminate Hr.
  - exists k. split; [exact Hk | exact Ht].
Defined.

(** X8.  An invocation saves an image exactly when it returns: a returning
    invocation has saved one image, as the last thing it did, and returns
    the record of that image; an invocation that raises has saved nothing.
    In both cases every model call was preceded by its own poll. *)
Theorem invoke_saves_iff_returns {F : Type} `{TorchFloat F}
  (calc_tiles_min_overlap : Z -> Z -> Z -> Z -> Z -> result (list Tile))
  (context : InvocationContext F) (self : SpandrelImageToImageInvocation)
  (r : result ImageOutput) (tr' : trace) :
  invoke calc_tiles_min_overlap context self [] = (r, tr') ->
  match r with
  | Ok output =>
      exists img tr2,
        tr' = EvSave img :: tr2 /\
        count is_save tr2 = 0%nat /\
        output = build (mkImageDTO 0 img) /\
        count is_run tr2 = count is_poll tr2
  | Raise _ =>
      count is_save tr' = 0%nat /\
      (count is_run tr' <= count is_poll tr')%nat
  end.
Proof.
  rewrite invoke_eq.
  destruct (prepare calc_tiles_min_overlap context self [])
    as [[[[[m x] pairs] d0]|e] tr1] eqn:Ep;
    pose proof (prepare_trace _ _ _ _ _ _ Ep) as (Pp & Pr & Ps & _);
    change (count is_poll []) with 0%nat in Pp;
    change (count is_run []) with 0%nat in Pr;
    change (count is_save []) with 0%nat in Ps.
  2:{ intros E; inversion E; subst. rewrite Ps, Pr, Pp. lia. }
  destruct (process_tiles context m x pairs d0 tr1) as [[d|e] tr2] eqn:El.
  2:{ intros E; inversion E; subst.
      destruct (process_tiles_trace _ _ _ _ _ _ _ _ El) as (_ & _ & Ls & _).
      pose proof (process_tiles_runs_le_polls _ _ _ _ _ _ _ _ El) as Hle.
      split; [now rewrite Ls, Ps | lia]. }
  pose proof (process_tiles_ok_trace _ _ _ _ _ _ _ _ El) as (Lp & Lr & Ls & _).
  rewrite finish_eq.
  destruct (fromarray (tmap3 (fun v => v mod 256) d)) as [img|].
  - intros E; inversion E; subst. exists img, tr2.
    assert (Hs : count is_save tr2 = 0%nat) by now rewrite Ls, Ps.
    rewrite Hs. repeat split; auto. lia.
  - intros E; inversion E; subst. split; [now rewrite Ls, Ps | lia].
Qed.

Lemma invoke_saves_iff_returns_witness :
  exists img tr2,
    snd (invoke Example.grid (Example.context Example.identity Example.never)
           Example.self []) = EvSave img :: tr2 /\
    count is_save tr2 = 0%nat.
Proof.
  pose proof (invoke_saves_iff_returns Example.grid
                (Example.context Example.identity Example.never)
                Example.self _ _ eq_refl) as W.
  cbv beta iota in W. destruct W as (img & tr2 & Ht & Hs & _).
  exists img, tr2. split; [exact Ht | exact Hs].
Defined.

(** X9.  When the image service hands over an RGB image and the tile
    generator returns no tile, the invocation does not fail: it polls
    nothing, runs no model, and saves an RGB image of the scaled size whose
    samples are all zero. *)
Theorem empty_tiling_saves_zeros {F : Type} `{TorchFloat F}
  (calc_tiles_min_overlap : Z -> Z -> Z -> Z -> Z -> result (list Tile))
  (context : InvocationContext F) (self : SpandrelImageToImageInvocation)
  (m : SpandrelImageToImageModel F) :
  let img := images_get_pil context (image self) ModeRGB in
  mode img = ModeRGB ->
  0 < tile_size self ->
  calc_tiles_min_overlap (height img) (width img) (tile_size self) (tile_size self) 20
    = Ok [] ->
  models_load context (image_to_image_model self) = IsSpandrelImageToImageModel m ->
  0 <= height img * scale m ->
  0 <= width img * scale m ->
  exists saved,
    invoke calc_tiles_min_overlap context self [] =
      (Ok (build (mkImageDTO 0 saved)), [EvSave saved; EvTileGrid]) /\
    mode saved = ModeRGB /\
    height saved = height img * scale m /\
    width saved = width img * scale m /\
    forall i j b, px saved i j b = 0.
Proof.
  intros img Hmode Hs Hc Hm Hh Hw.
  assert (Ht : compute_tiles calc_tiles_min_overlap self img [] = (Ok [], [EvTileGrid])).
  { unfold compute_tiles, tile_grid.
    destruct (tile_size self >? 0) eqn:E;
      [|rewrite Z.gtb_ltb in E; apply Z.ltb_ge in E; lia].
    now rewrite Hc. }
  assert (Ha : allocate_output (scale m) (pil_to_tensor (F:=F) img) =
               Some (mkTensor3 (height img * scale m, width img * scale m, 3)
                               (fun _ _ _ => 0))).
  { apply (allocate_output_some _ _ 1); [|assumption|assumption|lia].
    unfold pil_to_tensor, np_array. cbn [shape3 shape4]. now rewrite Hmode. }
  eexists. split.
  - rewrite invoke_eq, (prepare_run _ _ _ _ _ _ _ _ Ht Hm Ha).
    cbn [order_tiles sorted map process_tiles ret]. rewrite finish_eq.
    cbn [fromarray tmap3 shape3 at3]. cbn. reflexivity.
  - cbn. auto.
Qed.

Lemma empty_tiling_saves_zeros_witness :
  exists saved,
    invoke ExampleRGB.empty_grid (Example.context Example.doubling Example.never)
      Example.self [] =
      (Ok (build (mkImageDTO 0 saved)), [EvSave saved; EvTileGrid]) /\
    height saved = 8 /\ materialize3 (np_array saved) = materialize3
      (mkTensor3 (8, 8, 3) (fun _ _ _ => 0)).
Proof.
  destruct (empty_tiling_saves_zeros ExampleRGB.empty_grid
              (Example.context Example.doubling Example.never) Example.self
              Example.doubling eq_refl ltac:(cbn; lia) eq_refl eq_refl
              ltac:(cbn; lia) ltac:(cbn; lia))
    as (saved & Hi & Hmode & Hh & Hw & Hpx).
  exists saved. split; [exact Hi|]. split; [exact Hh|].
  apply materialize3_ext.
  - unfold np_array. cbn [shape3]. rewrite Hmode, Hh, Hw. reflexivity.
  - intros i j ch _. cbn [np_array at3]. apply Hpx.
Defined.

(** ** The value of a cell, and the invocation from end to end *)

(** X10.  After a loop that returns, a cell that lies in some stitch region
    holds what the last tile of the traversal whose region contains it wrote
    there: the loop over the tiles before that tile returns a tensor of the
    output shape, the model is run on the tile with as many earlier runs as
    there are tiles before it, its converted output is stitched into that
    tensor, and the cell keeps the value it had right after that stitch,
    whatever later tiles write elsewhere.  When the tile lies inside the
    output and the converted output has the tile's size, that value is the
    output's sample at the offset of the cell from the tile's top-left
    corner. *)
Theorem last_writer_wins {F : Type} `{TorchFloat F}
  (context : InvocationContext F) (m : SpandrelImageToImageModel F)
  (x : Tensor4 F) (h w c i j : Z) (pairs : list (Tile * Tile)) :
  forall (d0 d : Tensor3 Z) (tr tr' : trace),
    process_tiles context m x pairs d0 tr = (Ok d, tr') ->
    shape3 d0 = (h, w, c) ->
    stitched h w pairs i j = true ->
    exists before tile scaled_tile later o ot d1 tr1 d2,
      pairs = before ++ (tile, scaled_tile) :: later /\
      stitch_region h w scaled_tile i j = true /\
      stitched h w later i j = false /\
      process_tiles context m x before d0 tr = (Ok d1, tr1) /\
      shape3 d1 = (h, w, c) /\
      count is_run tr1 = (count is_run tr + List.length before)%nat /\
      run m (count is_run tr + List.length before) (extract_tile x tile) = Ok o /\
      convert_output_tile o = Some ot /\
      merge_tile d1 scaled_tile ot = Some d2 /\
      (forall ch, at3 d i j ch = at3 d2 i j ch) /\
      (tile_within h w scaled_tile ->
       shape3 ot = (bottom (coords scaled_tile) - top (coords scaled_tile),
                    right (coords scaled_tile) - left (coords scaled_tile), c) ->
       forall ch, 0 <= ch < c ->
         at3 d i j ch =
         at3 ot (i - top (coords scaled_tile)) (j - left (coords scaled_tile)) ch).
Proof.
  intros d0 d tr tr' E Hd0 Hs.
  destruct (process_tiles_last_writer context m x h w c i j pairs d0 d tr tr' E Hd0 Hs)
    as (before & tile & st & later & d1 & tr1 & o & ot & d2 &
        Hp & Hreg & Hlater & Hb & Hd1 & Hrun & Hconv & Hm & Hval).
  pose proof (process_tiles_ok_trace _ _ _ _ _ _ _ _ Hb) as (_ & Hruns & _).
  exists before, tile, st, later, o, ot, d1, tr1, d2.
  split; [exact Hp|]. split; [exact Hreg|]. split; [exact Hlater|].
  split; [exact Hb|]. split; [exact Hd1|]. split; [exact Hruns|].
  split; [now rewrite <- Hruns|]. split; [exact Hconv|]. split; [exact Hm|].
  split; [exact Hval|].
  intros Hw Hot ch Hch. rewrite Hval.
  now apply (merge_tile_value d1 d2 st ot h w c).
Qed.

Lemma last_writer_wins_witness :
  exists before tile scaled_tile later,
    map (fun t => (t, _scale_tile t 1)) (order_tiles Example.tiles) =
      before ++ (tile, scaled_tile) :: later /\
    stitch_region 4 4 scaled_tile 2 2 = true /\
    stitched 4 4 later 2 2 = false.
Proof.
  epose proof (last_writer_wins (Example.context Example.identity Example.never)
                 Example.identity (tmap4 to_dtype (pil_to_tensor Example.rgb))
                 4 4 3 2 2
                 (map (fun t => (t, _scale_tile t 1)) (order_tiles Example.tiles))
                 (mkTensor3 (4, 4, 3) (fun _ _ _ => 0)) _ [] _
                 eq_refl eq_refl eq_refl) as W.
  destruct W as (before & tile & scaled_tile & later & _ & _ & _ & _ & _ & Hp & Hr & Hl & _).
  exists before, tile, scaled_tile, later. auto.
Defined.

(** X11.  The tile taken from the input tensor is clipped to the image: for
    a tile with non-negative, ordered coordinates its height and width are
    those of the part of the tile inside the image, and its cells are those of
    the image from the tile's clipped corner on, in the model's dtype.  A tile
    that reaches beyond the image raises nothing. *)
Theorem extract_tile_clipped {F : Type} `{TorchFloat F}
  (x : Tensor4 F) (tile : Tile) (n c h w : Z) :
  shape4 x = (n, c, h, w) ->
  0 <= h -> 0 <= w ->
  0 <= top (coords tile) <= bottom (coords tile) ->
  0 <= left (coords tile) <= right (coords tile) ->
  shape4 (extract_tile x tile) =
    (n, c,
     Z.min (bottom (coords tile)) h - Z.min (top (coords tile)) h,
     Z.min (right (coords tile)) w - Z.min (left (coords tile)) w) /\
  forall b ch i j,
    at4 (extract_tile x tile) b ch i j =
    to_dtype (at4 x b ch (Z.min (top (coords tile)) h + i)
                         (Z.min (left (coords tile)) w + j)).
Proof.
  intros Hx Hh Hw Ht Hl. unfold extract_tile, getitem4_hw. rewrite Hx.
  unfold slice_indices, adjust_index. cbn [fst snd].
  destruct (top (coords tile) <? 0) eqn:E1; [apply Z.ltb_lt in E1; lia|].
  destruct (bottom (coords tile) <? 0) eqn:E2; [apply Z.ltb_lt in E2; lia|].
  destruct (left (coords tile) <? 0) eqn:E3; [apply Z.ltb_lt in E3; lia|].
  destruct (right (coords tile) <? 0) eqn:E4; [apply Z.ltb_lt in E4; lia|].
  cbn [tmap4 shape4 at4]. split; [|reflexivity].
  f_equal; [f_equal|]; lia.
Qed.

Lemma extract_tile_clipped_witness :
  shape4 (extract_tile (pil_to_tensor (F:=Q) Example.rgb)
            (mkTile (mkTBLR 2 7 1 3) (mkTBLR 0 0 0 0))) = (1, 3, 2, 2).
Proof.
  exact (proj1 (extract_tile_clipped (pil_to_tensor (F:=Q) Example.rgb)
                  (mkTile (mkTBLR 2 7 1 3) (mkTBLR 0 0 0 0)) 1 3 4 4 eq_refl
                  ltac:(lia) ltac:(lia) ltac:(cbn; lia) ltac:(cbn; lia))).
Defined.

Section ScalingFacts.
Context {F : Type} `{TorchFloat F}.
Variable context : InvocationContext F.
Variable m : SpandrelImageToImageModel F.
Variable x : Tensor4 F.

(** With a model that scales its input and no cancellation, the loop over
    tiles inside the image returns after one poll and one model call per
    tile. *)
Lemma process_tiles_scaling (h w c : Z) (tiles : list Tile) :
  shape4 x = (1, c, h, w) ->
  scales_output m ->
  (forall k, is_canceled_at context k = false) ->
  Forall (fun t => tile_within h w (_scale_tile t 1) /\
                   tile_within (h * scale m) (w * scale m) (_scale_tile t (scale m)))
         tiles ->
  forall (d0 : Tensor3 Z) (tr : trace),
    shape3 d0 = (h * scale m, w * scale m, c) ->
    exists d,
      process_tiles context m x
        (map (fun t => (t, _scale_tile t (scale m))) tiles) d0 tr =
        (Ok d, after_tiles (List.length tiles) tr) /\
      shape3 d = (h * scale m, w * scale m, c).
Proof.
  intros Hx Hsc Hcan Hall.
  induction Hall as [|t tiles [Ht1 Hts] _ IH]; intros d0 tr Hd0.
  - exists d0. split; [reflexivity | exact Hd0].
  - cbn [map List.length]. pose proof Ht1 as (H1 & H2 & H3 & H4 & _).
    cbn [_scale_tile coords overlap top bottom left right] in H1, H2, H3, H4.
    assert (Hin : shape4 (extract_tile x t) =
                  (1, c, bottom (coords t) - top (coords t),
                   right (coords t) - left (coords t))).
    { unfold extract_tile, getitem4_hw. rewrite Hx.
      rewrite !slice_indices_within by lia. cbn [tmap4 shape4].
      f_equal; [f_equal|]; lia. }
    destruct (Hsc (count is_run tr) _ _ _ _ _ Hin) as (o & Hrun & Ho).
    destruct (convert_output_tile_some o _ _ _ Ho) as (ot & Hconv & Hot & _).
    assert (Hot' : shape3 ot =
                   (bottom (coords (_scale_tile t (scale m))) -
                    top (coords (_scale_tile t (scale m))),
                    right (coords (_scale_tile t (scale m))) -
                    left (coords (_scale_tile t (scale m))), c)).
    { rewrite Hot. cbn [_scale_tile coords top bottom left right].
      now rewrite !Z.mul_sub_distr_r. }
    destruct (merge_tile_within d0 _ ot _ _ c Hd0 Hts Hot') as (d1 & Hm & Hd1 & _).
    destruct (IH d1 (after_tile tr) Hd1) as (d & Hl & Hd).
    exists d. split; [|exact Hd].
    rewrite process_tiles_cons, process_tile_eq, Hcan, Hrun, Hconv, Hm, Hl.
    now rewrite after_tiles_succ.
Qed.

End ScalingFacts.

Lemma covering_tiling_tiles_within (h w s : Z) (tiles : list Tile) :
  1 <= s -> covering_tiling h w tiles ->
  Forall (fun t => tile_within h w (_scale_tile t 1) /\
                   tile_within (h * s) (w * s) (_scale_tile t s)) tiles.
Proof.
  intros Hs Hcov. apply Forall_forall. intros t Ht. split.
  - pose proof (covering_tiling_within h w 1 tiles t ltac:(lia) Hcov Ht) as Hin.
    now rewrite !Z.mul_1_r in Hin.
  - now apply (covering_tiling_within h w s tiles).
Qed.

(** X12.  With an RGB image handed over by the image service, a covering
    tile set, a model that scales every input by its scale [S >= 1] and no
    cancellation, the invocation returns: it polls and runs the model once
    per tile, then saves one RGB image of [S] times the height and width of
    the input, made of 8-bit samples, and returns its record. *)
Theorem invoke_returns {F : Type} `{TorchFloat F}
  (calc_tiles_min_overlap : Z -> Z -> Z -> Z -> Z -> result (list Tile))
  (context : InvocationContext F) (self : SpandrelImageToImageInvocation)
  (m : SpandrelImageToImageModel F) (tiles : list Tile) (tr1 : trace) :
  let img := images_get_pil context (image self) ModeRGB in
  mode img = ModeRGB ->
  compute_tiles calc_tiles_min_overlap self img [] = (Ok tiles, tr1) ->
  covering_tiling (height img) (width img) tiles ->
  models_load context (image_to_image_model self) = IsSpandrelImageToImageModel m ->
  1 <= scale m ->
  scales_output m ->
  (forall k, is_canceled_at context k = false) ->
  exists saved,
    invoke calc_tiles_min_overlap context self [] =
      (Ok (build (mkImageDTO 0 saved)),
       EvSave saved :: after_tiles (List.length tiles) tr1) /\
    mode saved = ModeRGB /\
    height saved = height img * scale m /\
    width saved = width img * scale m /\
    forall i j b, 0 <= px saved i j b < 256.
Proof.
  intros img Hmode Ht Hcov Hm Hs Hsc Hcan.
  pose proof Hcov as (rows & cols & Hr & Hcl & _).
  pose proof (axis_valid_pos _ _ Hr) as Hh. pose proof (axis_valid_pos _ _ Hcl) as Hw.
  assert (Hx0 : shape4 (pil_to_tensor (F:=F) img) = (1, 3, height img, width img)).
  { unfold pil_to_tensor, np_array. cbn [shape3 shape4]. now rewrite Hmode. }
  assert (Ha := allocate_output_some (scale m) (pil_to_tensor (F:=F) img) 1 3 _ _ Hx0
                  ltac:(apply Z.mul_nonneg_nonneg; lia)
                  ltac:(apply Z.mul_nonneg_nonneg; lia) ltac:(lia)).
  assert (Hord : covering_tiling (height img) (width img) (order_tiles tiles)).
  { apply (covering_tiling_perm _ _ tiles); [apply order_tiles_sorted | exact Hcov]. }
  destruct (process_tiles_scaling context m (tmap4 to_dtype (pil_to_tensor img))
              (height img) (width img) 3 (order_tiles tiles) Hx0 Hsc Hcan
              (covering_tiling_tiles_within _ _ _ _ Hs Hord)
              (mkTensor3 (height img * scale m, width img * scale m, 3)
                         (fun _ _ _ => 0)) tr1 eq_refl)
    as (d & Hl & Hd).
  rewrite (Permutation_length (proj1 (order_tiles_sorted tiles))) in Hl.
  destruct (compute_tiles_trace _ _ _ _ _ _ Ht) as (_ & _ & Hsave & _).
  assert (Hns : count is_save (after_tiles (List.length tiles) tr1) = 0%nat).
  { pose proof (process_tiles_ok_trace _ _ _ _ _ _ _ _ Hl) as (_ & _ & Ls & _).
    now rewrite Ls, Hsave. }
  destruct d as [sd fd]. cbn [shape3] in Hd. subst sd.
  eexists. split.
  - rewrite invoke_eq, (prepare_run _ _ _ _ _ _ _ _ Ht Hm Ha). cbv beta iota.
    fold img. rewrite Hl, finish_eq.
    cbn [fromarray tmap3 shape3 at3]. cbn [Z.eqb Pos.eqb]. rewrite Hns. reflexivity.
  - cbn [mode height width px]. repeat split; try reflexivity.
    + apply Z.mod_pos_bound. lia.
    + apply Z.mod_pos_bound. lia.
Qed.

Lemma example_doubling_scales : scales_output Example.doubling.
Proof.
  intros k x n c h w Hx. cbn [run Example.doubling]. rewrite Hx.
  eexists. split; [reflexivity|]. cbn [shape4 scale Example.doubling].
  now rewrite (Z.mul_comm 2 h), (Z.mul_comm 2 w).
Qed.

Lemma invoke_returns_witness :
  exists saved,
    invoke Example.grid (Example.context Example.doubling Example.never)
      Example.self [] =
      (Ok (build (mkImageDTO 0 saved)), EvSave saved :: after_tiles 4 [EvTileGrid]) /\
    height saved = 8 /\ width saved = 8.
Proof.
  destruct (invoke_returns Example.grid (Example.context Example.doubling Example.never)
              Example.self Example.doubling Example.tiles [EvTileGrid]
              eq_refl eq_refl (valid_tiling_covering _ _ _ _ example_valid_tiling) eq_refl
              ltac:(cbn; lia) example_doubling_scales (fun _ => eq_refl))
    as (saved & Hi & _ & Hh & Hw & _).
  exists saved. split; [exact Hi|]. split; [exact Hh | exact Hw].
Defined.

(** X13.  With an RGB image handed over by the image service, a covering
    tile set, a model of scale 1 that returns its input, no cancellation and
    samples that survive the conversion to float and back, the invocation
    saves an image equal, byte for byte, to the RGB image it loaded. *)
Theorem invoke_identity_round_trip {F : Type} `{TorchFloat F}
  (calc_tiles_min_overlap : Z -> Z -> Z -> Z -> Z -> result (list Tile))
  (context : InvocationContext F) (self : SpandrelImageToImageInvocation)
  (m : SpandrelImageToImageModel F) (tiles : list Tile) (tr1 : trace) :
  let img := images_get_pil context (image self) ModeRGB in
  mode img = ModeRGB ->
  compute_tiles calc_tiles_min_overlap self img [] = (Ok tiles, tr1) ->
  covering_tiling (height img) (width img) tiles ->
  models_load context (image_to_image_model self) = IsSpandrelImageToImageModel m ->
  scale m = 1 ->
  (forall n x, run m n x = Ok x) ->
  (forall k, is_canceled_at context k = false) ->
  (forall i j b, in_shape3 (shape3 (np_array img)) i j b -> 0 <= px img i j b < 256) ->
  (forall v, 0 <= v < 256 ->
             to_uint8 (mul_255 (clamp_0_1 (to_dtype (to_dtype (of_uint8 v))))) = v) ->
  exists saved tr',
    invoke calc_tiles_min_overlap context self [] =
      (Ok (build (mkImageDTO 0 saved)), EvSave saved :: tr') /\
    mode saved = ModeRGB /\
    materialize3 (np_array saved) = materialize3 (np_array img).
Proof.
  intros img Hmode Ht Hcov Hm Hs Hrun Hcan Hpx Hrt.
  pose proof Hcov as (rows & cols & Hr & Hcl & _).
  pose proof (axis_valid_pos _ _ Hr) as Hh. pose proof (axis_valid_pos _ _ Hcl) as Hw.
  set (h := height img) in *. set (w := width img) in *.
  assert (Hx0 : shape4 (pil_to_tensor (F:=F) img) = (1, 3, h, w)).
  { unfold pil_to_tensor, np_array. cbn [shape3 shape4]. now rewrite Hmode. }
  assert (Ha := allocate_output_some (scale m) (pil_to_tensor (F:=F) img) 1 3 _ _ Hx0
                  ltac:(rewrite Hs; lia) ltac:(rewrite Hs; lia) ltac:(lia)).
  assert (Hord : covering_tiling h w (order_tiles tiles)).
  { apply (covering_tiling_perm _ _ tiles); [apply order_tiles_sorted | exact Hcov]. }
  assert (Hall : Forall (fun t => tile_within h w (_scale_tile t 1)) (order_tiles tiles)).
  { eapply Forall_impl; [|apply (covering_tiling_tiles_within h w 1 _ ltac:(lia) Hord)].
    intros t [Hin _]. exact Hin. }
  destruct (process_tiles_identity context m (tmap4 to_dtype (pil_to_tensor img))
              h w 3 (order_tiles tiles) Hx0 Hrun Hcan Hall
              (mkTensor3 (h * scale m, w * scale m, 3) (fun _ _ _ => 0)) tr1
              ltac:(rewrite Hs; cbn; now rewrite !Z.mul_1_r))
    as (d & tr' & Hl & Hd & Hcells).
  destruct (compute_tiles_trace _ _ _ _ _ _ Ht) as (_ & _ & Hsave & _).
  assert (Hns : count is_save tr' = 0%nat).
  { pose proof (process_tiles_ok_trace _ _ _ _ _ _ _ _ Hl) as (_ & _ & Ls & _).
    now rewrite Ls, Hsave. }
  destruct d as [sd fd]. cbn [shape3] in Hd. subst sd. cbn [at3] in Hcells.
  eexists. exists tr'. split; [|split].
  - rewrite invoke_eq, (prepare_run _ _ _ _ _ _ _ _ Ht Hm Ha). cbv beta iota.
    fold img. fold h w. rewrite Hs. rewrite Hs in Hl. rewrite Hl, finish_eq.
    cbn [fromarray tmap3 shape3 at3]. cbn [Z.eqb Pos.eqb]. rewrite Hns. reflexivity.
  - reflexivity.
  - apply materialize3_ext.
    + unfold np_array. cbn [shape3 mode height width]. fold h w. now rewrite Hmode.
    + unfold np_array at 1. cbn [shape3 mode height width bands].
      intros i j ch (Hi & Hj & Hch). cbn [np_array at3 px].
      rewrite (Hcells i j ch Hch).
      destruct (covering_tiling_stitched h w 1 (order_tiles tiles) i j ltac:(lia) Hord
                  ltac:(lia) ltac:(lia)) as (t & Hin & Hst).
      rewrite !Z.mul_1_r in Hst.
      rewrite (stitched_true h w _ (t, _scale_tile t 1) i j);
        [|apply in_map_iff; exists t; auto | exact Hst].
      assert (Hb : 0 <= px img i j ch < 256).
      { apply Hpx. unfold np_array. cbn [shape3 in_shape3]. fold h w.
        rewrite Hmode. cbn [bands]. auto. }
      assert (Hq : quantized (tmap4 to_dtype (pil_to_tensor img)) ch i j = px img i j ch).
      { unfold quantized, pil_to_tensor, np_array. cbn [shape3 tmap4 at4 at3].
        now apply Hrt. }
      rewrite Hq. apply Z.mod_small. exact Hb.
Qed.

Lemma example_converted_byte (i j b : Z) :
  in_shape3
    (shape3 (np_array (images_get_pil
                         (Example.context Example.identity Example.never) "img" ModeRGB))) i j b ->
  0 <= px (images_get_pil (Example.context Example.identity Example.never) "img" ModeRGB)
          i j b < 256.
Proof. intros _. cbn. unfold Example.pixel. apply Z.mod_pos_bound. lia. Qed.

Lemma invoke_identity_round_trip_witness :
  exists saved tr',
    invoke Example.grid (Example.context Example.identity Example.never)
      Example.self_untiled [] =
      (Ok (build (mkImageDTO 0 saved)), EvSave saved :: tr') /\
    materialize3 (np_array saved) = materialize3 (np_array Example.rgb).
Proof.
  destruct (invoke_identity_round_trip Example.grid
              (Example.context Example.identity Example.never)
              Example.self_untiled Example.identity
              [mkTile (mkTBLR 0 4 0 4) (mkTBLR 0 0 0 0)] []
              eq_refl eq_refl (single_tile_covering 4 4 ltac:(lia) ltac:(lia)) eq_refl eq_refl
              (fun _ _ => eq_refl) (fun _ => eq_refl)
              example_converted_byte exactQ_round_trip)
    as (saved & tr' & Hi & _ & Hm).
  exists saved, tr'. split; [exact Hi|].
  rewrite Hm. reflexivity.
Defined.
